(** * Observational-astronomy lab scripts: a shallow embedding

    The two scripts of the repository are embedded here:
    - [obsastro_quasar_module.py] (Exercise 1): background estimation,
      Gaussian centroiding, wavelength calibration;
    - [astrometryExercise.py] (Exercise 3): the interactive viewers, of which
      the grid viewer writes into the module namespace.

    Floating-point values are modelled by the real numbers of the Standard
    Library, Python integers by [Z], loop counters by [nat]; arrays hold
    floats, and a two-dimensional array is rectangular.  The routines of
    the numerical library that solve a fitting problem ([numpy.linalg.lstsq]
    inside [numpy.polyfit], [scipy.optimize.curve_fit]) are parameters of the
    development; the argument checks that [numpy.polyfit] performs before it
    solves are modelled, since the control flow of the scripts depends on
    them. *)

From Stdlib Require Import Reals Lra Lia ZArith List String.
From stdpp Require Import gmap strings pretty.
From Stdlib Require Import Ascii.

(** ** Python values, exceptions and sequences *)

Module Py.

(** The exceptions that the modelled code can raise.  [Exception] carries
    its message, the library exceptions only their class. *)
Inductive exn : Type :=
| Exception (msg : string)
| TypeError
| IndexError
| NameError
| ValueError
| RuntimeError.

Inductive result (A : Type) : Type :=
| Ok (a : A)
| Raise (e : exn).
Arguments Ok {A} a.
Arguments Raise {A} e.

#[export] Instance result_ret : MRet result := fun A a => Ok a.
#[export] Instance result_bind : MBind result := fun A B f m =>
  match m with
  | Ok a => f a
  | Raise e => Raise e
  end.
#[export] Instance result_fmap : FMap result := fun A B f m =>
  match m with
  | Ok a => Ok (f a)
  | Raise e => Raise e
  end.

(** [for x in xs: acc = body(acc, x)], stopping at the first exception. *)
Fixpoint foldM {A St : Type} (body : St → A → result St) (xs : list A) (s : St)
  : result St :=
  match xs with
  | [] => Ok s
  | x :: xs' => s' ← body s x; foldM body xs' s'
  end.

(** [int(r)] on a float: truncation toward zero. *)
Definition int (r : R) : Z :=
  if Rle_dec 0 r then Int_part r else (- Int_part (- r))%Z.

(** Normalisation of one bound of a slice [a[lo:hi]] over a sequence of
    length [len]: a negative bound counts from the end, and the result is
    clamped to [0..len]. *)
Definition clamp (len : nat) (i : Z) : nat :=
  if (i <? 0)%Z then Z.to_nat (Z.max (i + Z.of_nat len) 0)
  else Nat.min (Z.to_nat i) len.

(** [a[lo:hi]] *)
Definition slice {A : Type} (a : list A) (lo hi : Z) : list A :=
  let l := clamp (length a) lo in
  let h := clamp (length a) hi in
  take (h - l) (drop l a).

(** [max(a)] of a sequence of floats; [ValueError] on the empty sequence. *)
Definition max_of (a : list R) : result R :=
  match a with
  | [] => Raise ValueError
  | x :: a' => Ok (fold_left Rmax a' x)
  end.

(** [a[i]], with Python's negative indices; [IndexError] out of range. *)
Definition index {A : Type} (a : list A) (i : Z) : result A :=
  let j := if (i <? 0)%Z then (i + Z.of_nat (length a))%Z else i in
  if (j <? 0)%Z then Raise IndexError
  else match a !! Z.to_nat j with
       | Some v => Ok v
       | None => Raise IndexError
       end.

End Py.
Export Py.

(** ** The part of numpy that the scripts use *)

Module Np.

(** A two-dimensional float array: its shape and its rows. *)
Record ndarray : Type := mk_ndarray {
  shape : nat * nat;
  rows : list (list R)
}.

Definition wf (a : ndarray) : Prop :=
  length (rows a) = fst (shape a) ∧
  Forall (fun r => length r = snd (shape a)) (rows a).

(** The entry [a[i][j]] of a well-formed array (0 outside of it). *)
Definition get (a : ndarray) (i j : nat) : R :=
  nth j (nth i (rows a) []) 0%R.

(** [np.arange(lo, hi)], its integers embedded in the reals. *)
Definition arange (lo hi : Z) : list R :=
  map (fun k => IZR (lo + Z.of_nat k)) (seq 0 (Z.to_nat (hi - lo))).

(** [np.zeros_like(a)] *)
Definition zeros_like (a : ndarray) : ndarray :=
  {| shape := shape a;
     rows := repeat (repeat 0%R (snd (shape a))) (fst (shape a)) |}.

(** [a[:, col]] for a column index that is not negative. *)
Definition getcol (a : ndarray) (col : nat) : result (list R) :=
  if col <? snd (shape a) then Ok (map (fun r => nth col r 0%R) (rows a))
  else Raise IndexError.

(** [a[i][col] = v] *)
Definition setitem (a : ndarray) (i col : nat) (v : R) : result ndarray :=
  if (i <? fst (shape a)) && (col <? snd (shape a))
  then Ok {| shape := shape a; rows := alter (fun r => <[col := v]> r) i (rows a) |}
  else Raise IndexError.

(** The median of three numbers. *)
Definition median3 (a b c : R) : R :=
  Rmax (Rmin a b) (Rmin (Rmax a b) c).

(** [np.median([a, b, c], axis=0)] for three arrays of one length. *)
Fixpoint median (a b c : list R) : list R :=
  match a, b, c with
  | x :: a', y :: b', z :: c' => median3 x y z :: median a' b' c'
  | _, _, _ => []
  end.

(** [np.poly1d(c)(x)]: Horner evaluation, highest degree first. *)
Definition poly1d (c : list R) (x : R) : R :=
  fold_left (fun acc a => (acc * x + a)%R) c 0%R.

(** The sum of squared residuals of the polynomial [c] on the samples. *)
Fixpoint sse (c x y : list R) : R :=
  match x, y with
  | xi :: x', yi :: y' => ((poly1d c xi - yi) * (poly1d c xi - yi) + sse c x' y')%R
  | _, _ => 0%R
  end.

(** The squared distance between the values of two polynomials on the
    sample positions. *)
Fixpoint gap (c c' x y : list R) : R :=
  match x, y with
  | xi :: x', yi :: y' =>
      ((poly1d c xi - poly1d c' xi) * (poly1d c xi - poly1d c' xi) + gap c c' x' y')%R
  | _, _ => 0%R
  end.

(** [c] is a least-squares polynomial of degree [deg] for the samples. *)
Definition least_squares (deg : nat) (x y c : list R) : Prop :=
  length c = S deg ∧
  ∀ c', length c' = S deg → (sse c x y <= sse c' x y)%R.

Section Polyfit.
(** The solver behind [np.polyfit]: the coefficients, highest degree
    first, that it returns for samples of equal, positive length. *)
Variable lstsq : list R → list R → nat → list R.

(** [np.polyfit(x, y, deg)]: the checks on the arguments, then the solve. *)
Definition polyfit (x y : list R) (deg : nat) : result (list R) :=
  if length x =? 0 then Raise TypeError
  else if negb (length x =? length y) then Raise TypeError
  else Ok (lstsq x y deg).
End Polyfit.

End Np.

Export Np.

(** ** Effects: the module namespace and the output *)

Module Io.

(** What a call can touch besides its arguments: the namespace of the
    module it lives in ([globals()], a dictionary from names to objects of
    the module's kind [O]) and the output produced so far (console lines
    and rendering calls, oldest first). *)
Inductive pyval : Type :=
| VStr (s : string)
| VNum (r : R).

Inductive event : Type :=
| Print (args : list pyval)
| PltFigure (w h : R)
| PltScatter (x y : list R) (label : list pyval)
| PltTitle (s : string)
| PltXlabel (s : string)
| PltYlabel (s : string)
| PltAxhline (y : R)
| PltLegend
| PltImshow (image : ndarray) (vmin vmax : R)
| PltSubplots (w h : R)
| PltPlot (y : list R)
| PltYlim (lo hi : R)
| PlotLineIds (wave flux line_wave : list R) (labels : list string)
              (arrow_tip box_loc : R) (color : string)
| SetFontsize (fontsize : R)
| PltShow.

Record world (O : Type) : Type := mk_world {
  globals : gmap string O;
  output : list event
}.
Arguments mk_world {O} globals output.
Arguments globals {O} w.
Arguments output {O} w.

(** A computation that may raise, over a world that it may change. *)
Definition io (O A : Type) : Type := world O → result A * world O.

#[export] Instance io_ret {O} : MRet (io O) := fun A a w => (Ok a, w).
#[export] Instance io_bind {O} : MBind (io O) := fun A B f m w =>
  match m w with
  | (Ok a, w') => f a w'
  | (Raise e, w') => (Raise e, w')
  end.

(** A pure computation run inside [io]. *)
Definition lift {O A} (r : result A) : io O A := fun w => (r, w).

(** One output call. *)
Definition emit {O} (e : event) : io O () :=
  fun w => (Ok (), mk_world (globals w) (output w ++ [e])).

(** [globals()[name] = v] *)
Definition setglobal {O} (name : string) (v : O) : io O () :=
  fun w => (Ok (), mk_world (<[name := v]> (globals w)) (output w)).

(** [eval(name)] of a name that is not a local: the module namespace, and
    [NameError] when it is not bound there. *)
Definition evalglobal {O} (name : string) : io O O :=
  fun w => match globals w !! name with
           | Some v => (Ok v, w)
           | None => (Raise NameError, w)
           end.

(** A computation is stateless when its result and the output that it
    appends are the same in every world, and it leaves the namespace as it
    found it. *)
Definition stateless {O A} (m : io O A) : Prop :=
  ∃ (r : result A) (events : list event), ∀ u : world O,
    m u = (r, mk_world (globals u) (output u ++ events)).

End Io.
Export Io.

(** ** Exercise 1: [obsastro_quasar_module.py] *)

Module Quasar.

Definition input_error : string :=
  "Error: y-values are inconsistent, make sure that they are given in increasing order and that they are not out of bounds.".

(** The condition of the [if] that guards [background]. *)
Definition inconsistent (y1 y2 y3 y4 : Z) : bool :=
  negb ((y1 <? y2)%Z && (y2 <? y3)%Z && (y3 <? y4)%Z)
  || negb ((0 <=? y1)%Z && (y1 <=? 63)%Z)
  || negb ((0 <=? y2)%Z && (y2 <=? 63)%Z)
  || negb ((73 <=? y3)%Z && (y3 <=? 135)%Z)
  || negb ((73 <=? y4)%Z && (y4 <=? 135)%Z).

Section Rendering.
(** [ZScaleInterval().get_limits(image)] of astropy: the display range. *)
Variable get_limits : ndarray → R * R.

Definition display_2d {O} (image_array : ndarray) (title : string) : io O () :=
  _ ← emit (PltFigure 10 3);
  let '(vmin, vmax) := get_limits image_array in
  _ ← emit (PltImshow image_array vmin vmax);
  _ ← emit (PltTitle title);
  emit PltShow.
End Rendering.

(** [plot_lines]: the spectrum, its labels, and the line identifications
    drawn by [lineid_plot.plot_line_ids]; the font size is then set on every
    annotation.  [max(arc_spectrum)] is evaluated for the limits, and again,
    with the same value, for the arrow tips and the boxes. *)
Definition plot_lines {O} (arc_spectrum pix_refined : list R)
    (wav_labels : list string) (x_label y_label title : string) (fontsize : R)
  : io O () :=
  _ ← emit (PltSubplots 9 6);
  _ ← emit (PltPlot arc_spectrum);
  _ ← emit (PltXlabel x_label);
  _ ← emit (PltYlabel y_label);
  _ ← emit (PltTitle title);
  m ← lift (max_of arc_spectrum);
  _ ← emit (PltYlim (-50000) (12 / 10 * m));
  _ ← emit (PlotLineIds (arange 0 (Z.of_nat (length arc_spectrum))) arc_spectrum
                        pix_refined wav_labels (101 / 100 * m) (11 / 10 * m)
                        "lightblue");
  _ ← emit (SetFontsize fontsize);
  emit PltShow.

(** [gauss(x, H, A, x0, sigma)] *)
Definition gauss (x H A x0 sigma : R) : R :=
  (H + A * exp (- (x - x0) ^ 2 / (2 * sigma ^ 2)))%R.

(** The window [a[centre-width:centre+width]] of [centroid_peak]. *)
Definition zoom (width : Z) (a : list R) (centre : Z) : list R :=
  slice a (centre - width) (centre + width).

(** [scipy.optimize.curve_fit(f, xdata, ydata, p0=p0)] for a model [f] of
    four parameters: the fitted parameters and their covariance, or the
    solver's exception. *)
Definition fitter : Type :=
  (R → R → R → R → R → R) → list R → list R → list R →
  result (list R * list (list R)).

Section Fitting.
Variable lstsq : list R → list R → nat → list R.

Variable curve_fit : fitter.

(** One pass of the inner loop of [background]: [bkg_array[i][col] = fit[i]]
    for [i] in [range(n)]. *)
Definition store_column (fit : list R) (col n : nat) (bkg_array : ndarray)
  : result ndarray :=
  foldM (fun bkg_array i =>
           v ← index fit (Z.of_nat i);
           setitem bkg_array i col v)
        (seq 0 n) bkg_array.

(** The samples of one column that the polynomial is fitted to. *)
Definition column_samples (image : ndarray) (N col : nat) (y1 y2 y3 y4 : Z)
  : result (list R) :=
  if (col <=? 1) || (Z.of_nat N - 2 <=? Z.of_nat col)%Z then
    column ← getcol image col;
    mret (slice column y1 y2 ++ slice column y3 y4)
  else
    c0 ← getcol image (col - 1);
    c1 ← getcol image col;
    c2 ← getcol image (col + 1);
    let column := median c0 c1 c2 in
    mret (slice column y1 y2 ++ slice column y3 y4).

Definition background (image : ndarray) (y1 y2 y3 y4 : Z) : result ndarray :=
  if inconsistent y1 y2 y3 y4 then Raise (Exception input_error)
  else
    let n := Nat.min (fst (shape image)) (snd (shape image)) in
    let N := Nat.max (fst (shape image)) (snd (shape image)) in
    let bkg_array := zeros_like image in
    let x := arange y1 y2 ++ arange y3 y4 in
    foldM (fun bkg_array col =>
             bkg ← column_samples image N col y1 y2 y3 y4;
             f ← polyfit lstsq x bkg 2;
             let fit := map (poly1d f) (arange 0 (Z.of_nat n)) in
             store_column fit col n bkg_array)
          (seq 0 N) bkg_array.

Definition fit_gaussian_centroid (x y p0 : list R) : result (list R) :=
  '(parameters, covariance) ← curve_fit gauss x y p0;
  mret parameters.

Definition centroid_peak (width : Z) (x y : list R) (centre : Z) : result R :=
  let x_zoom := zoom width x centre in
  let y_zoom := zoom width y centre in
  a ← index y_zoom width;
  c ← index x_zoom width;
  centre_fit ← fit_gaussian_centroid x_zoom y_zoom [0%R; a; c; 1%R];
  index centre_fit 2.

Definition get_centroid_locations (pix spectrum : list R) : result (list R) :=
  let N := length spectrum in
  foldM (fun pix_refined p =>
           c ← centroid_peak 5 (arange 0 (Z.of_nat N)) spectrum (int p);
           mret (pix_refined ++ [c]))
        pix [].

(** [wav2 - wav], elementwise on sequences of one length. *)
Fixpoint residuals (wav2 wav : list R) : list R :=
  match wav2, wav with
  | a :: wav2', b :: wav' => (a - b)%R :: residuals wav2' wav'
  | _, _ => []
  end.

(** [np.sum(r ** 2)] *)
Definition sum_sq (r : list R) : R :=
  fold_right (fun a acc => (a ^ 2 + acc)%R) 0%R r.

(** The value that [calibration] names [RMS]. *)
Definition rms (wavcal_func : R → R) (pix_refined wav : list R) : R :=
  let wav2 := map wavcal_func pix_refined in
  sqrt (sum_sq (residuals wav2 wav) / INR (length pix_refined)).

(** [round(RMS, 3)] is kept symbolic in the label of the scatter plot. *)
Definition calibration {O} (pix_refined wav pix_axis : list R) : io O (list R) :=
  fit ← lift (polyfit lstsq pix_refined wav 3);
  let wavcal_func := poly1d fit in
  let wav_axis := map wavcal_func pix_axis in
  let wav2 := map wavcal_func pix_refined in
  let RMS := rms wavcal_func pix_refined wav in
  _ ← emit (Print [VStr "RMS: "; VNum RMS; VStr " Angstroms"]);
  _ ← emit (PltFigure 9 6);
  _ ← emit (PltScatter wav (residuals wav2 wav) [VStr "RMS: "; VNum RMS; VStr "A"]);
  _ ← emit (PltTitle "Residuals of the wavelength calibration fit");
  _ ← emit (PltXlabel "Input Wavelengths (A)");
  _ ← emit (PltYlabel "Residuals (A)");
  _ ← emit (PltAxhline 0);
  _ ← emit PltLegend;
  _ ← emit PltShow;
  mret wav_axis.
End Fitting.

End Quasar.

(** ** Exercise 3: [astrometryExercise.py] *)

Module Astrometry.

(** The objects that the grid viewer stores in the namespace of its module:
    a cut-out of the image, a bokeh figure, and the renderers returned by
    the figure's [image] and [cross] methods. *)
Inductive obj : Type :=
| Cutout (a : ndarray)
| Figure (x_range y_range : Z * Z)
| ImageRenderer (image : ndarray) (dh dw : nat) (x y : Z)
| CrossRenderer (x y : Z) (line_width : R) (color : string) (size : Z).

(** [a[r0:r1, c0:c1]] *)
Definition slice2 (a : ndarray) (r0 r1 c0 c1 : Z) : ndarray :=
  let rs := slice (rows a) r0 r1 in
  {| shape := (length rs, clamp (snd (shape a)) c1 - clamp (snd (shape a)) c0);
     rows := map (fun r => slice r c0 c1) rs |}.

(** ['polyxena_cut%i' % k] and its siblings. *)
Definition polyxena_cut (k : nat) : string := "polyxena_cut" +:+ pretty k.
Definition plot_cut (k : nat) : string := "plot_cut" +:+ pretty k.
Definition r_ (k : nat) : string := "r_" +:+ pretty k.
Definition c_ (k : nat) : string := "c_" +:+ pretty k.

(** [zip(enumerate(xcoors), ycoors)] *)
Fixpoint zip_enumerate (i : nat) (xcoors ycoors : list R) : list (nat * R * R) :=
  match xcoors, ycoors with
  | x :: xs, y :: ys => (i, x, y) :: zip_enumerate (S i) xs ys
  | _, _ => []
  end.

(** [eval(name).shape] of a cut-out; an attribute of any other object is
    an error of the interpreter. *)
Definition shape_of (o : obj) : result (nat * nat) :=
  match o with
  | Cutout a => Ok (shape a)
  | _ => Raise TypeError
  end.

Definition array_of (o : obj) : result ndarray :=
  match o with
  | Cutout a => Ok a
  | _ => Raise TypeError
  end.

(** One iteration of the loop of [polyxenaDisplayGrid] over the stars. *)
Definition cut_star (polyxena : ndarray) (listPlots : list obj) (i : nat) (x y : R)
  : io obj (list obj) :=
  _ ← setglobal (polyxena_cut (i + 1))
        (Cutout (slice2 polyxena (int (y - 30)) (int (y + 30))
                                 (int (x - 30)) (int (x + 30))));
  _ ← setglobal (plot_cut (i + 1)) (Figure (0, 60)%Z (0, 60)%Z);
  p ← evalglobal (plot_cut (i + 1));
  let listPlots := listPlots ++ [p] in
  _ ← evalglobal (plot_cut (i + 1));
  im ← evalglobal (polyxena_cut (i + 1));
  a ← lift (array_of im);
  s0 ← (o ← evalglobal (polyxena_cut (i + 1)); lift (shape_of o));
  s1 ← (o ← evalglobal (polyxena_cut (i + 1)); lift (shape_of o));
  _ ← setglobal (r_ (i + 1)) (ImageRenderer a (fst s0) (snd s1) 0 0);
  _ ← evalglobal (plot_cut (i + 1));
  _ ← setglobal (c_ (i + 1)) (CrossRenderer 30 30 (13 / 10) "red" 10);
  mret listPlots.

Fixpoint cut_stars (polyxena : ndarray) (stars : list (nat * R * R))
  (listPlots : list obj) : io obj (list obj) :=
  match stars with
  | [] => mret listPlots
  | (i, x, y) :: stars' =>
      listPlots' ← cut_star polyxena listPlots i x y;
      cut_stars polyxena stars' listPlots'
  end.

(** [polyxenaDisplayGrid(doc)] inside [polyxenaPlotCentres(polyxena,
    xcoors, ycoors)].  Its value here is the list of figures that it lays
    out in a grid and adds to [doc]; the widgets around the grid are not
    modelled. *)
Definition polyxenaDisplayGrid (polyxena : ndarray) (xcoors ycoors : list R)
  : io obj (list obj) :=
  cut_stars polyxena (zip_enumerate 0 xcoors ycoors) [].

(** The names that [polyxenaDisplayGrid] binds for [n] stars. *)
Definition bound_names (n : nat) : list string :=
  flat_map (fun i => [polyxena_cut (i + 1); plot_cut (i + 1); r_ (i + 1); c_ (i + 1)])
           (seq 0 n).

End Astrometry.

(** ** Exercise 3: the click-capture script of [display_event]

    [display_event] builds a piece of JavaScript that the browser runs on
    every double tap.  It is modelled on strings; the text that
    [JSON.stringify] produces for a coordinate is an argument, since the
    formatting of the number is the browser's. *)

Module ClickCapture.

(** The line feed, and the separator [", \n"] between recorded values. *)
Definition nl : string := String "010"%char EmptyString.
Definition line_sep : string := ", " +:+ nl.

(** The scan of [s.split(sep)] for a separator that is not empty: [cur] is
    the piece read so far, [skip] counts the characters of a separator
    found that are still to be passed over. *)
Fixpoint split_go (sep : string) (skip : nat) (cur s : string) : list string :=
  match s with
  | EmptyString => [cur]
  | String c s' =>
      match skip with
      | S k => split_go sep k cur s'
      | O =>
          if String.prefix sep s
          then cur :: split_go sep (String.length sep - 1) EmptyString s'
          else split_go sep 0 (cur +:+ String c EmptyString) s'
      end
  end.

Fixpoint chars (s : string) : list string :=
  match s with
  | EmptyString => []
  | String c s' => String c EmptyString :: chars s'
  end.

(** [s.split(sep)] *)
Definition split (sep s : string) : list string :=
  match sep with
  | EmptyString => chars s
  | _ => split_go sep 0 EmptyString s
  end.

(** [a.join(sep)] *)
Fixpoint join (sep : string) (a : list string) : string :=
  match a with
  | [] => EmptyString
  | [x] => x
  | x :: a' => x +:+ sep +:+ join sep a'
  end.

(** [a[i]] where it is concatenated to a string: an index past the end
    gives [undefined], which concatenates as its name. *)
Definition item (a : list string) (i : nat) : string :=
  default "undefined" (a !! i).

(** The update of one [Div]: append the value and the separator, split,
    drop the oldest piece when there are more than 35, join. *)
Definition record (text val : string) : string :=
  let line := val +:+ line_sep in
  let text' := text +:+ line in
  let lines := split line_sep text' in
  let lines := if 35 <? length lines then tail lines else lines in
  join line_sep lines.

(** The script, for the attributes [['x', 'y']]: [sx] and [sy] are the
    texts of [cb_obj.x] and [cb_obj.y], [divX] and [divY] the texts of the
    two [Div] models before the event; the result is their texts after
    it. *)
Definition display_event (divX divY sx sy : string) : string * string :=
  let args := ["x=" +:+ sx; "y=" +:+ sy] in
  let xy := join ", " args in
  let vals := split ", " xy in
  let xval := item (split "x=" (item vals 0)) 1 in
  let divX' := record divX xval in
  let yval := item (split "y=" (item vals 1)) 1 in
  let divY' := record divY yval in
  (divX', divY').

(** The text of a [Div] that holds the given values, oldest first. *)
Fixpoint text_of (values : list string) : string :=
  match values with
  | [] => EmptyString
  | v :: values' => v +:+ line_sep +:+ text_of values'
  end.

(** The character [c] does not occur in [s]. *)
Fixpoint no_char (c : ascii) (s : string) : Prop :=
  match s with
  | EmptyString => True
  | String d s' => d ≠ c ∧ no_char c s'
  end.

End ClickCapture.

(** ** The specification's wording, for comparison with the code *)

Module Spec.

(** Band boundaries in strictly increasing order. *)
Definition increasing (y1 y2 y3 y4 : Z) : bool :=
  (y1 <? y2)%Z && (y2 <? y3)%Z && (y3 <? y4)%Z.

(** Band 1 within the first half of the image's row extent, band 2 within
    the second half. *)
Definition within_halves (image : ndarray) (y1 y2 y3 y4 : Z) : bool :=
  let h := Z.of_nat (fst (shape image)) in
  (0 <=? y1)%Z && (y2 <=? h / 2)%Z && (h / 2 <=? y3)%Z && (y4 <=? h)%Z.

(** When the specification expects the input error. *)
Definition input_error_expected (image : ndarray) (y1 y2 y3 y4 : Z) : bool :=
  negb (increasing y1 y2 y3 y4) || negb (within_halves image y1 y2 y3 y4).

(** The row coordinates of the two background bands. *)
Definition band_rows (y1 y2 y3 y4 : Z) : list R :=
  arange y1 y2 ++ arange y3 y4.

(** The entries of one column, top to bottom. *)
Definition raw_column (image : ndarray) (col : nat) : list R :=
  map (fun i => get image i col) (seq 0 (fst (shape image))).

(** The data of a column: its own entries for the two columns on either
    end, the elementwise median with its two neighbours otherwise. *)
Definition column_data (image : ndarray) (col : nat) : list R :=
  if (col <=? 1) || (snd (shape image) - 2 <=? col)
  then raw_column image col
  else median (raw_column image (col - 1)) (raw_column image col)
              (raw_column image (col + 1)).

(** The two band row ranges of a column's data, concatenated. *)
Definition band_samples (column : list R) (y1 y2 y3 y4 : Z) : list R :=
  slice column y1 y2 ++ slice column y3 y4.

(** [m] is the median of [a], [b] and [c]: one of the three, with at least
    two of them at or below it and at least two of them at or above it. *)
Definition is_median (a b c m : R) : Prop :=
  (m = a ∨ m = b ∨ m = c) ∧
  ((a <= m ∧ b <= m) ∨ (a <= m ∧ c <= m) ∨ (b <= m ∧ c <= m))%R ∧
  ((m <= a ∧ m <= b) ∨ (m <= a ∧ m <= c) ∨ (m <= b ∧ m <= c))%R.

(** The two columns on either end of the image. *)
Definition end_column (image : ndarray) (col : nat) : Prop :=
  col ≤ 1 ∨ snd (shape image) ≤ col + 2.

(** [v] is the datum of column [col] at row [r]: the entry of the image
    for the two columns on either end, the median of the entry and of its
    left and right neighbours for the others. *)
Definition column_value (image : ndarray) (col r : nat) (v : R) : Prop :=
  (end_column image col → v = get image r col) ∧
  (¬ end_column image col →
   is_median (get image r (col - 1)) (get image r col) (get image r (col + 1)) v).



(** The sequence holds at least [n] distinct positions. *)
Definition distinct_positions (n : nat) (pix : list R) : Prop :=
  ∃ l : list R, length l = n ∧ NoDup l ∧ ∀ x, x ∈ l → x ∈ pix.

(** The window of the centroid refiner as the specification words it: the
    samples from [position - 5] to [position + 5], both included. *)
Definition symmetric_window (a : list R) (position : Z) : list R :=
  slice a (position - 5) (position + 5 + 1).

End Spec.

(** ** Concrete inputs *)

Module Examples.

(** An image of [r] rows and [c] columns that is zero everywhere. *)
Definition flat (r c : nat) : ndarray :=
  {| shape := (r, c); rows := repeat (repeat 0%R c) r |}.

(** A solver that answers the zero polynomial. *)
Definition lstsq_zero (x y : list R) (deg : nat) : list R :=
  repeat 0%R (S deg).

(** A fitter that answers, in place of the centre, the number of samples
    that it was given. *)
Definition curve_fit_probe (f : R → R → R → R → R → R) (x y p0 : list R)
  : result (list R * list (list R)) :=
  Ok ([0%R; 0%R; INR (length x); 1%R], []).

(** A fitter that answers its initial guess. *)
Definition curve_fit_guess (f : R → R → R → R → R → R) (x y p0 : list R)
  : result (list R * list (list R)) :=
  Ok (p0, []).

(** Five arc lines whose wavelengths no cubic comes close to: the zero
    polynomial is their least-squares cubic. *)
Definition pix5 : list R := [0; 1; 2; 3; 4]%R.
Definition wav5 : list R := [1; -4; 6; -4; 1]%R.

(** Four arc lines on the cubic [x ^ 3], and its coefficients. *)
Definition pix4 : list R := [0; 1; 2; 3]%R.
Definition lstsq_cube (x y : list R) (deg : nat) : list R := [1; 0; 0; 0]%R.

(** An image of [r] rows and [c] columns with the value [v] everywhere. *)
Definition level (r c : nat) (v : R) : ndarray :=
  {| shape := (r, c); rows := repeat (repeat v c) r |}.

(** The image [a] with row [i] set to [v]. *)
Definition with_row (a : ndarray) (i : nat) (v : R) : ndarray :=
  {| shape := shape a; rows := <[i := repeat v (snd (shape a))]> (rows a) |}.




(** A namespace with nothing in it and no output so far. *)
Definition fresh {O} : world O := mk_world ∅ [].

(** The integers [0 .. n-1] as a spectrum. *)
Definition ramp (n : nat) : list R := arange 0 (Z.of_nat n).

End Examples.

(** * Properties *)

(** ** Sequences *)

Module PyFacts.

(** [int] rounds toward zero: it keeps the sign and drops the fraction. *)
Lemma int_toward_zero (r : R) :
  ((0 <= r → IZR (int r) <= r < IZR (int r) + 1) ∧
   (r <= 0 → IZR (int r) - 1 < r <= IZR (int r)))%R.
Proof.
  unfold int. destruct (Rle_dec 0 r) as [Hpos|Hneg].
  - destruct (base_Int_part r) as [H1 H2]. split; intros H; [lra|].
    assert (r = 0%R) as -> by lra.
    replace (Int_part 0) with 0%Z by (apply Int_part_spec; simpl; lra).
    simpl. lra.
  - destruct (base_Int_part (- r)) as [H1 H2]. rewrite opp_IZR.
    split; intros H; lra.
Qed.

Lemma clamp_inside (len : nat) (i : Z) :
  (0 ≤ i ≤ Z.of_nat len)%Z → clamp len i = Z.to_nat i.
Proof.
  intros Hi. unfold clamp.
  destruct (Z.ltb_spec i 0); lia.
Qed.

Lemma length_slice {A} (a : list A) (lo hi : Z) :
  (0 ≤ lo ≤ hi)%Z → (hi ≤ Z.of_nat (length a))%Z →
  length (slice a lo hi) = Z.to_nat (hi - lo).
Proof.
  intros H1 H2. unfold slice.
  rewrite !clamp_inside by lia.
  rewrite length_take, length_drop. lia.
Qed.

Lemma lookup_slice {A} (a : list A) (lo hi : Z) (k : nat) :
  (0 ≤ lo ≤ hi)%Z → (hi ≤ Z.of_nat (length a))%Z →
  k < Z.to_nat (hi - lo) →
  slice a lo hi !! k = a !! (Z.to_nat lo + k).
Proof.
  intros H1 H2 Hk. unfold slice.
  rewrite !clamp_inside by lia.
  rewrite lookup_take_lt by lia.
  apply lookup_drop.
Qed.

Lemma index_lookup {A} (a : list A) (i : nat) (v : A) :
  a !! i = Some v → index a (Z.of_nat i) = Ok v.
Proof.
  intros H. unfold index.
  destruct (Z.ltb_spec (Z.of_nat i) 0); [lia|].
  destruct (Z.ltb_spec (Z.of_nat i) 0); [lia|].
  rewrite Nat2Z.id, H. reflexivity.
Qed.

Lemma length_arange (lo hi : Z) : length (arange lo hi) = Z.to_nat (hi - lo).
Proof. unfold arange. rewrite length_map, length_seq. reflexivity. Qed.

Lemma lookup_arange (lo hi : Z) (k : nat) :
  k < Z.to_nat (hi - lo) → arange lo hi !! k = Some (IZR (lo + Z.of_nat k)).
Proof.
  intros Hk. unfold arange.
  change (map ?f ?l) with (f <$> l).
  rewrite list_lookup_fmap, lookup_seq_lt by exact Hk. reflexivity.
Qed.

(** A loop whose body keeps an invariant, and succeeds on every state that
    satisfies it, succeeds and ends in a state that satisfies it. *)
Lemma foldM_invariant {A St} (I : nat → St → Prop) (body : St → A → result St)
      (xs : list A) :
  ∀ (k : nat) (s : St),
    I k s →
    (∀ j x s, xs !! j = Some x → I (k + j) s →
              ∃ s', body s x = Ok s' ∧ I (k + S j) s') →
    ∃ s', foldM body xs s = Ok s' ∧ I (k + length xs) s'.
Proof.
  induction xs as [|x xs IH]; intros k s Hs Hbody; simpl.
  - exists s. rewrite Nat.add_0_r. auto.
  - destruct (Hbody 0 x s eq_refl) as (s1 & -> & Hs1).
    { rewrite Nat.add_0_r. exact Hs. }
    simpl. destruct (IH (k + 1) s1) as (s2 & Hs2 & HI).
    + exact Hs1.
    + intros j y t Hj Ht. destruct (Hbody (S j) y t Hj) as (t' & ? & ?).
      { replace (k + S j) with (k + 1 + j) by lia. exact Ht. }
      exists t'. split; [assumption|].
      replace (k + 1 + S j) with (k + S (S j)) by lia. assumption.
    + exists s2. split; [exact Hs2|].
      replace (k + S (length xs)) with (k + 1 + length xs) by lia. exact HI.
Qed.

(** What a loop raises, its body raised. *)
Lemma foldM_raise {A St} (P : exn → Prop) (body : St → A → result St) (xs : list A) :
  (∀ s x e, body s x = Raise e → P e) →
  ∀ s e, foldM body xs s = Raise e → P e.
Proof.
  intros Hbody. induction xs as [|x xs IH]; intros s e; simpl.
  - discriminate.
  - destruct (body s x) as [s'|e'] eqn:Hb; simpl.
    + apply IH.
    + intros [= <-]. eapply Hbody, Hb.
Qed.

(** A loop raises when, at one of its elements, the body raises whatever
    the state. *)
Lemma foldM_raises_at {A St} (body : St → A → result St) (xs : list A) (x : A) :
  x ∈ xs → (∀ s, ∃ e, body s x = Raise e) →
  ∀ s, ∃ e, foldM body xs s = Raise e.
Proof.
  intros Hx Hbody. induction xs as [|y xs IH]; intros s; simpl.
  - inversion Hx.
  - apply elem_of_cons in Hx as [<-|Hx].
    + destruct (Hbody s) as [e ->]. simpl. eauto.
    + destruct (body s y) as [s'|e]; simpl; [apply IH; exact Hx | eauto].
Qed.

(** A slice with bounds in order, clipped to the sequence. *)
Lemma length_slice_clipped {A} (a : list A) (lo hi : Z) :
  (0 ≤ lo ≤ hi)%Z →
  length (slice a lo hi)
  = Nat.min (Z.to_nat hi) (length a) - Nat.min (Z.to_nat lo) (length a).
Proof.
  intros H. unfold slice, clamp.
  destruct (Z.ltb_spec lo 0); [lia|]. destruct (Z.ltb_spec hi 0); [lia|].
  rewrite length_take, length_drop. lia.
Qed.

End PyFacts.

(** ** Arrays *)

Module NpFacts.

Lemma get_lookup (a : ndarray) (i j : nat) (r : list R) :
  rows a !! i = Some r → get a i j = default 0%R (r !! j).
Proof.
  intros H. unfold get.
  rewrite (nth_lookup_Some _ _ _ _ H). apply nth_lookup.
Qed.

Lemma wf_zeros_like (a : ndarray) : wf (zeros_like a).
Proof.
  split; simpl.
  - apply repeat_length.
  - apply List.Forall_forall. intros r Hr.
    apply repeat_spec in Hr as ->. apply repeat_length.
Qed.

Lemma wf_row (a : ndarray) (i : nat) :
  wf a → i < fst (shape a) →
  ∃ r, rows a !! i = Some r ∧ length r = snd (shape a).
Proof.
  intros [Hlen Hall] Hi.
  destruct (lookup_lt_is_Some_2 (rows a) i) as [r Hr]; [lia|].
  exists r. split; [exact Hr|].
  exact (Forall_lookup_1 _ _ _ _ Hall Hr).
Qed.

(** On an array in good order, [a[:, col]] is the column, top to bottom. *)
Lemma getcol_ok (a : ndarray) (col : nat) :
  wf a → col < snd (shape a) → getcol a col = Ok (Spec.raw_column a col).
Proof.
  intros Hwf Hcol. unfold getcol.
  destruct (Nat.ltb_spec col (snd (shape a))); [|lia].
  f_equal. unfold Spec.raw_column.
  apply list_eq. intros i.
  change (map ?f ?l) with (f <$> l).
  rewrite !list_lookup_fmap.
  destruct (decide (i < fst (shape a))) as [Hi|Hi].
  - destruct (wf_row a i Hwf Hi) as (r & Hr & _).
    rewrite Hr, lookup_seq_lt by exact Hi. simpl.
    unfold get. rewrite (nth_lookup_Some _ _ _ _ Hr). reflexivity.
  - destruct Hwf as [Hlen _].
    rewrite lookup_ge_None_2, lookup_seq_ge by lia. reflexivity.
Qed.

Lemma length_raw_column (a : ndarray) (col : nat) :
  length (Spec.raw_column a col) = fst (shape a).
Proof. unfold Spec.raw_column. rewrite length_map, length_seq. reflexivity. Qed.

Lemma length_median (a b c : list R) :
  length b = length a → length c = length a →
  length (median a b c) = length a.
Proof.
  revert b c.
  induction a as [|x a IH]; intros [|y b] [|z c]; simpl; try discriminate; auto.
Qed.

Lemma length_column_data (a : ndarray) (col : nat) :
  length (Spec.column_data a col) = fst (shape a).
Proof.
  unfold Spec.column_data.
  destruct ((col <=? 1) || (snd (shape a) - 2 <=? col)).
  - apply length_raw_column.
  - rewrite length_median; rewrite !length_raw_column; reflexivity.
Qed.

(** An assignment inside the array changes that entry and no other. *)
Lemma setitem_ok (a : ndarray) (i col : nat) (v : R) :
  wf a → i < fst (shape a) → col < snd (shape a) →
  ∃ a', setitem a i col v = Ok a' ∧ shape a' = shape a ∧ wf a' ∧
        ∀ i' j', get a' i' j' =
                 if decide (i' = i ∧ j' = col) then v else get a i' j'.
Proof.
  intros Hwf Hi Hcol. unfold setitem.
  destruct (Nat.ltb_spec i (fst (shape a))); [|lia].
  destruct (Nat.ltb_spec col (snd (shape a))); [|lia].
  simpl. eexists. split; [reflexivity|]. split; [reflexivity|].
  destruct (wf_row a i Hwf Hi) as (r & Hr & Hlen).
  split.
  - destruct Hwf as [Hrows Hall]. split; simpl.
    + rewrite length_alter. exact Hrows.
    + apply Forall_alter; [exact Hall|].
      intros x _ Hx. rewrite length_insert. exact Hx.
  - intros i' j'. unfold get at 1. simpl.
    rewrite !nth_lookup, list_lookup_alter.
    destruct (decide (i = i')) as [<-|Hne].
    + rewrite Hr. simpl.
      destruct (decide (j' = col)) as [->|Hj].
      * rewrite list_lookup_insert_eq by lia.
        rewrite decide_True by auto. reflexivity.
      * rewrite list_lookup_insert_ne by auto.
        rewrite decide_False by tauto.
        rewrite (get_lookup a i j' r Hr). reflexivity.
    + rewrite decide_False by (intros [? ?]; congruence).
      unfold get. rewrite !nth_lookup. reflexivity.
Qed.

End NpFacts.

(** ** The background estimator *)

Module BackgroundFacts.
Import PyFacts NpFacts Quasar.

(** The guard of [background] read as a proposition. *)
Lemma inconsistent_false (y1 y2 y3 y4 : Z) :
  inconsistent y1 y2 y3 y4 = false ↔
  (y1 < y2 ∧ y2 < y3 ∧ y3 < y4 ∧ 0 ≤ y1 ≤ 63 ∧ 0 ≤ y2 ≤ 63 ∧
   73 ≤ y3 ≤ 135 ∧ 73 ≤ y4 ≤ 135)%Z.
Proof. unfold inconsistent. lia. Qed.

Lemma inconsistent_unordered (y1 y2 y3 y4 : Z) :
  ¬ (y1 < y2 ∧ y2 < y3 ∧ y3 < y4)%Z → inconsistent y1 y2 y3 y4 = true.
Proof. unfold inconsistent. lia. Qed.

Lemma length_band_rows (y1 y2 y3 y4 : Z) :
  length (Spec.band_rows y1 y2 y3 y4) = Z.to_nat (y2 - y1) + Z.to_nat (y4 - y3).
Proof. unfold Spec.band_rows. rewrite length_app, !length_arange. reflexivity. Qed.

Lemma length_band_samples (column : list R) (y1 y2 y3 y4 : Z) :
  (0 ≤ y1 ≤ y2)%Z → (y2 ≤ y3)%Z → (y3 ≤ y4)%Z → (y4 ≤ Z.of_nat (length column))%Z →
  length (Spec.band_samples column y1 y2 y3 y4)
  = Z.to_nat (y2 - y1) + Z.to_nat (y4 - y3).
Proof.
  intros. unfold Spec.band_samples.
  rewrite length_app, !length_slice by lia. reflexivity.
Qed.

Section WithSolver.
Variable lstsq : list R → list R → nat → list R.

(** The inner loop writes the fitted values into one column. *)
Lemma store_column_ok (fit : list R) (col n : nat) (arr : ndarray) :
  wf arr → n ≤ fst (shape arr) → col < snd (shape arr) → length fit = n →
  ∃ arr', store_column fit col n arr = Ok arr' ∧
          shape arr' = shape arr ∧ wf arr' ∧
          ∀ i j, get arr' i j =
                 if decide (j = col ∧ i < n) then nth i fit 0%R else get arr i j.
Proof.
  intros Hwf Hn Hcol Hfit. unfold store_column.
  destruct (foldM_invariant
              (fun k s => shape s = shape arr ∧ wf s ∧
                 ∀ i j, get s i j =
                        if decide (j = col ∧ i < k) then nth i fit 0%R
                        else get arr i j)
              (fun bkg_array i => v ← index fit (Z.of_nat i);
                                  setitem bkg_array i col v)
              (seq 0 n) 0 arr) as (arr' & Hrun & Hshape & Hwf' & Hget).
  - split; [reflexivity|]. split; [exact Hwf|].
    intros i j. rewrite decide_False by lia. reflexivity.
  - intros j x s Hx (Hs & Hwfs & Hgets).
    apply lookup_seq in Hx as [-> Hj]. simpl in *.
    destruct (lookup_lt_is_Some_2 fit j) as [v Hv]; [lia|].
    rewrite (index_lookup fit j v Hv). simpl.
    destruct (setitem_ok s j col v Hwfs) as (s' & -> & Hs' & Hwfs' & Hgets');
      [rewrite Hs; lia | rewrite Hs; lia |].
    exists s'. split; [reflexivity|]. split; [congruence|]. split; [exact Hwfs'|].
    intros i j'. rewrite Hgets', Hgets.
    destruct (decide (i = j ∧ j' = col)) as [[-> ->]|Hne].
    + rewrite decide_True by lia. rewrite (nth_lookup_Some _ _ 0%R _ Hv). reflexivity.
    + destruct (decide (j' = col ∧ i < j)) as [[-> Hlt]|Hne'].
      * rewrite decide_True by lia. reflexivity.
      * rewrite decide_False by lia. reflexivity.
  - rewrite length_seq in *. simpl in *. exists arr'. auto.
Qed.

(** On a wide image the samples of a column are the two band ranges of
    its data: its own entries at either end, the median with its
    neighbours otherwise. *)
Lemma column_samples_ok (image : ndarray) (col : nat) (y1 y2 y3 y4 : Z) :
  wf image → col < snd (shape image) →
  column_samples image (snd (shape image)) col y1 y2 y3 y4
  = Ok (Spec.band_samples (Spec.column_data image col) y1 y2 y3 y4).
Proof.
  intros Hwf Hcol. unfold column_samples, Spec.column_data.
  replace ((Z.of_nat (snd (shape image)) - 2 <=? Z.of_nat col)%Z)
    with (snd (shape image) - 2 <=? col)
    by (destruct (Z.leb_spec (Z.of_nat (snd (shape image)) - 2) (Z.of_nat col));
        destruct (Nat.leb_spec (snd (shape image) - 2) col); lia).
  destruct (Nat.leb_spec col 1) as [H1|H1]; simpl.
  - rewrite getcol_ok by assumption. reflexivity.
  - destruct (Nat.leb_spec (snd (shape image) - 2) col) as [H2|H2].
    + rewrite getcol_ok by assumption. reflexivity.
    + rewrite !getcol_ok by (assumption || lia). reflexivity.
Qed.

(** The value that the estimator computes for row [i] of column [col]. *)
Lemma background_ok (image : ndarray) (y1 y2 y3 y4 : Z) :
  wf image →
  fst (shape image) ≤ snd (shape image) →
  (y4 ≤ Z.of_nat (fst (shape image)))%Z →
  inconsistent y1 y2 y3 y4 = false →
  ∃ out, background lstsq image y1 y2 y3 y4 = Ok out ∧
         shape out = shape image ∧ wf out ∧
         ∀ i col, i < fst (shape image) → col < snd (shape image) →
           get out i col =
           poly1d (lstsq (Spec.band_rows y1 y2 y3 y4)
                         (Spec.band_samples (Spec.column_data image col) y1 y2 y3 y4)
                         2)
                  (IZR (Z.of_nat i)).
Proof.
  intros Hwf Hwide Hy4 Hok. unfold background. rewrite Hok.
  apply inconsistent_false in Hok.
  rewrite Nat.min_l, Nat.max_r by lia.
  set (value := fun col i =>
         poly1d (lstsq (Spec.band_rows y1 y2 y3 y4)
                       (Spec.band_samples (Spec.column_data image col) y1 y2 y3 y4) 2)
                (IZR (Z.of_nat i))).
  fold (Spec.band_rows y1 y2 y3 y4).
  match goal with |- ∃ out, foldM ?body _ _ = _ ∧ _ =>
    destruct (foldM_invariant
                (fun k s => shape s = shape image ∧ wf s ∧
                   ∀ i j, i < fst (shape image) → j < k → get s i j = value j i)
                body (seq 0 (snd (shape image))) 0 (zeros_like image))
      as (out & Hrun & Hshape & Hwfo & Hget)
  end.
  - split; [reflexivity|]. split; [apply wf_zeros_like|]. intros; lia.
  - intros j col s Hx (Hs & Hwfs & Hgets).
    apply lookup_seq in Hx as [-> Hj]. simpl in *.
    rewrite column_samples_ok by assumption. simpl.
    unfold polyfit.
    rewrite length_band_rows, length_band_samples
      by (rewrite ?length_column_data; lia).
    destruct (Nat.eqb_spec (Z.to_nat (y2 - y1) + Z.to_nat (y4 - y3)) 0); [lia|].
    rewrite Nat.eqb_refl. simpl.
    match goal with |- ∃ s', store_column ?fit _ _ _ = _ ∧ _ =>
      destruct (store_column_ok fit j (fst (shape image)) s)
        as (s' & -> & Hs' & Hwfs' & Hgets')
    end; try (rewrite ?Hs; assumption || lia).
    { rewrite length_map, length_arange. lia. }
    exists s'. split; [reflexivity|]. split; [congruence|]. split; [exact Hwfs'|].
    intros i j' Hi Hj'. rewrite Hgets'.
    destruct (decide (j' = j ∧ i < fst (shape image))) as [[-> _]|Hne].
    + rewrite nth_lookup.
      change (map ?f ?l) with (f <$> l).
      rewrite list_lookup_fmap, lookup_arange by lia. reflexivity.
    + apply Hgets; lia.
  - rewrite length_seq in *. simpl in *. exists out. auto.
Qed.

(** The estimator raises nothing but its own input error and the errors
    of the indexing and fitting that it performs. *)
Lemma background_raises (image : ndarray) (y1 y2 y3 y4 : Z) (e : exn) :
  background lstsq image y1 y2 y3 y4 = Raise e →
  (inconsistent y1 y2 y3 y4 = true ∧ e = Exception input_error) ∨
  (inconsistent y1 y2 y3 y4 = false ∧ (e = TypeError ∨ e = IndexError)).
Proof.
  unfold background.
  destruct (inconsistent y1 y2 y3 y4); [intros [= <-]; auto|].
  intros H. right. split; [reflexivity|]. revert H.
  apply (foldM_raise (fun e => e = TypeError ∨ e = IndexError)).
  clear e. intros s col e.
  unfold column_samples, getcol, polyfit.
  repeat (match goal with
          | |- context [if ?b then _ else _] => destruct b
          end; simpl; try (intros [= <-]; auto)).
  all: apply (foldM_raise (fun e => e = TypeError ∨ e = IndexError)).
  all: clear; intros s i e; unfold index, setitem.
  all: repeat (match goal with
          | |- context [if ?b then _ else _] => destruct b
          | |- context [match ?l !! ?i with _ => _ end] => destruct (l !! i)
          end; simpl; try (intros [= <-]; auto)); discriminate.
Qed.
(** The estimator returns on no other image in good order than an empty
    one or one with at least [y4] rows and at least as many columns as
    rows. *)
Lemma background_returns_inv (image out : ndarray) (y1 y2 y3 y4 : Z) :
  wf image →
  background lstsq image y1 y2 y3 y4 = Ok out →
  inconsistent y1 y2 y3 y4 = false ∧
  ((fst (shape image) ≤ snd (shape image) ∧ (y4 ≤ Z.of_nat (fst (shape image)))%Z) ∨
   shape image = (0, 0)).
Proof.
  intros Hwf. unfold background.
  destruct (inconsistent y1 y2 y3 y4) eqn:Hok; [discriminate|].
  intros Hrun. split; [reflexivity|].
  apply inconsistent_false in Hok.
  destruct (decide (fst (shape image) = 0 ∧ snd (shape image) = 0)) as [[H0 H1]|Hne].
  { right. destruct (shape image); simpl in *; congruence. }
  left.
  destruct (decide (fst (shape image) ≤ snd (shape image))) as [Hwide|Htall].
  - split; [exact Hwide|].
    destruct (decide (y4 ≤ Z.of_nat (fst (shape image)))%Z) as [Hy4|Hy4];
      [exact Hy4 | exfalso].
    rewrite Nat.max_r in Hrun by exact Hwide.
    match type of Hrun with foldM ?body ?xs ?st = _ =>
      assert (Hr : ∀ s, ∃ e, foldM body xs s = Raise e);
        [apply (foldM_raises_at body xs 0)
        | destruct (Hr st) as [e He]; congruence]
    end.
    + apply list_elem_of_In, in_seq. lia.
    + intros s. rewrite column_samples_ok by (assumption || lia).
      cbn [mbind result_bind]. unfold polyfit, Spec.band_samples.
      rewrite !length_app, !length_arange, !length_slice_clipped,
        !length_column_data by lia.
      destruct (Nat.eqb_spec (Z.to_nat (y2 - y1) + Z.to_nat (y4 - y3)) 0); [lia|].
      match goal with |- context [negb (?a =? ?b)] =>
        destruct (Nat.eqb_spec a b) as [Heq|_]; [lia|]
      end.
      simpl. eauto.
  - exfalso.
    rewrite Nat.max_l in Hrun by lia.
    match type of Hrun with foldM ?body ?xs ?st = _ =>
      assert (Hr : ∀ s, ∃ e, foldM body xs s = Raise e);
        [apply (foldM_raises_at body xs (snd (shape image)))
        | destruct (Hr st) as [e He]; congruence]
    end.
    + apply list_elem_of_In, in_seq. lia.
    + intros s. unfold column_samples, getcol.
      destruct (Nat.ltb_spec (snd (shape image)) (snd (shape image))); [lia|].
      destruct (Nat.ltb_spec (snd (shape image) - 1) (snd (shape image)));
        destruct ((snd (shape image) <=? 1)
                  || (Z.of_nat (fst (shape image)) - 2 <=? Z.of_nat (snd (shape image)))%Z);
        simpl; eauto.
Qed.
End WithSolver.

End BackgroundFacts.

(** ** Claims on the background estimator *)

Module BackgroundClaims.
Import PyFacts NpFacts Quasar BackgroundFacts Examples.

Lemma wf_flat (r c : nat) : wf (flat r c).
Proof. apply (wf_zeros_like (mk_ndarray (r, c) [])). Qed.

(** C2, as stated, fails: a quadruple that passes the check on an image
    with fewer rows than [y4] ends in the [TypeError] of the fit, and on
    an image with more rows than columns in an [IndexError]. *)
Lemma background_raises_on_short_or_tall_image :
  inconsistent 0 63 73 135 = false ∧
  background lstsq_zero (flat 100 200) 0 63 73 135 = Raise TypeError ∧
  background lstsq_zero (flat 136 100) 0 63 73 135 = Raise IndexError.
Proof. repeat split; vm_compute; reflexivity. Qed.

(** C2, amended: on an image in good order that has at least [y4] rows and
    at least as many columns as rows, for a quadruple that passes the
    check, the estimator returns an array of the shape of the image. *)
Theorem background_same_shape
    (lstsq : list R → list R → nat → list R)
    (image : ndarray) (y1 y2 y3 y4 : Z) :
  wf image →
  fst (shape image) ≤ snd (shape image) →
  (y4 ≤ Z.of_nat (fst (shape image)))%Z →
  inconsistent y1 y2 y3 y4 = false →
  ∃ out, background lstsq image y1 y2 y3 y4 = Ok out ∧
         shape out = shape image ∧ wf out.
Proof.
  intros Hwf Hwide Hy4 Hok.
  destruct (background_ok lstsq image y1 y2 y3 y4 Hwf Hwide Hy4 Hok)
    as (out & Hrun & Hshape & Hwfo & _).
  exists out. auto.
Qed.

Lemma background_same_shape_witness :
  ∃ out, background lstsq_zero (flat 136 200) 0 63 73 135 = Ok out ∧
         shape out = (136, 200) ∧ wf out.
Proof.
  apply (background_same_shape lstsq_zero (flat 136 200) 0 63 73 135).
  - apply wf_flat.
  - simpl. lia.
  - simpl. lia.
  - reflexivity.
Defined.

(** C4: boundaries that are not in strictly increasing order make the
    estimator raise its input error, whatever the image and whatever the
    solver would answer; no array is returned. *)
Theorem background_rejects_unordered
    (lstsq : list R → list R → nat → list R)
    (image : ndarray) (y1 y2 y3 y4 : Z) :
  ¬ (y1 < y2 ∧ y2 < y3 ∧ y3 < y4)%Z →
  background lstsq image y1 y2 y3 y4 = Raise (Exception input_error) ∧
  ∀ out, background lstsq image y1 y2 y3 y4 ≠ Ok out.
Proof.
  intros H. unfold background.
  rewrite (inconsistent_unordered _ _ _ _ H).
  split; [reflexivity | discriminate].
Qed.

Lemma background_rejects_unordered_witness :
  background lstsq_zero (flat 136 200) 10 5 80 90 = Raise (Exception input_error) ∧
  ∀ out, background lstsq_zero (flat 136 200) 10 5 80 90 ≠ Ok out.
Proof.
  apply (background_rejects_unordered lstsq_zero (flat 136 200) 10 5 80 90).
  lia.
Defined.

(** C5, as stated, fails: on an image of 200 rows the bands 0..90 and
    110..190 are in order and lie in the first and in the second half of
    the rows, and the estimator raises its input error all the same. *)
Lemma background_rejects_bands_within_halves :
  Spec.input_error_expected (flat 200 300) 0 90 110 190 = false ∧
  background lstsq_zero (flat 200 300) 0 90 110 190
  = Raise (Exception input_error).
Proof. split; vm_compute; reflexivity. Qed.

(** C5, amended: the estimator raises its input error exactly when the
    boundaries are not in strictly increasing order or leave the fixed
    ranges 0..63 (for [y1], [y2]) and 73..135 (for [y3], [y4]); the image
    plays no part in the check. *)
Theorem background_input_error_iff
    (lstsq : list R → list R → nat → list R)
    (image : ndarray) (y1 y2 y3 y4 : Z) :
  background lstsq image y1 y2 y3 y4 = Raise (Exception input_error) ↔
  ¬ (y1 < y2 ∧ y2 < y3 ∧ y3 < y4 ∧ 0 ≤ y1 ≤ 63 ∧ 0 ≤ y2 ≤ 63 ∧
     73 ≤ y3 ≤ 135 ∧ 73 ≤ y4 ≤ 135)%Z.
Proof.
  rewrite <- inconsistent_false. split.
  - intros H. apply background_raises in H as [[H _]|[_ [H|H]]];
      [congruence | discriminate | discriminate].
  - intros H. unfold background.
    destruct (inconsistent y1 y2 y3 y4); [reflexivity | congruence].
Qed.

End BackgroundClaims.

(** ** Least-squares cubics *)

Module CubicFacts.

Local Open Scope R_scope.

Lemma poly1d_cubic (a b c d x : R) :
  poly1d [a; b; c; d] x = a * x ^ 3 + b * x ^ 2 + c * x + d.
Proof. unfold poly1d. simpl. ring. Qed.

Lemma length4 {A} (l : list A) :
  length l = 4%nat → ∃ a b c d, l = [a; b; c; d].
Proof.
  destruct l as [|a [|b [|c [|d [|e l]]]]]; try discriminate.
  intros _. eauto.
Qed.

(** A cubic that vanishes at four distinct points is the zero polynomial. *)
Lemma cubic_four_roots (a b c d x1 x2 x3 x4 : R) :
  x1 ≠ x2 → x1 ≠ x3 → x1 ≠ x4 → x2 ≠ x3 → x2 ≠ x4 → x3 ≠ x4 →
  poly1d [a; b; c; d] x1 = 0 → poly1d [a; b; c; d] x2 = 0 →
  poly1d [a; b; c; d] x3 = 0 → poly1d [a; b; c; d] x4 = 0 →
  a = 0 ∧ b = 0 ∧ c = 0 ∧ d = 0.
Proof.
  rewrite !poly1d_cubic.
  intros H12 H13 H14 H23 H24 H34 E1 E2 E3 E4.
  assert (Q12 : a * (x1 ^ 2 + x1 * x2 + x2 ^ 2) + b * (x1 + x2) + c = 0).
  { apply (Rmult_eq_reg_l (x1 - x2)); [|lra]. rewrite Rmult_0_r.
    transitivity ((a * x1 ^ 3 + b * x1 ^ 2 + c * x1 + d)
                  - (a * x2 ^ 3 + b * x2 ^ 2 + c * x2 + d)); [ring|lra]. }
  assert (Q13 : a * (x1 ^ 2 + x1 * x3 + x3 ^ 2) + b * (x1 + x3) + c = 0).
  { apply (Rmult_eq_reg_l (x1 - x3)); [|lra]. rewrite Rmult_0_r.
    transitivity ((a * x1 ^ 3 + b * x1 ^ 2 + c * x1 + d)
                  - (a * x3 ^ 3 + b * x3 ^ 2 + c * x3 + d)); [ring|lra]. }
  assert (Q14 : a * (x1 ^ 2 + x1 * x4 + x4 ^ 2) + b * (x1 + x4) + c = 0).
  { apply (Rmult_eq_reg_l (x1 - x4)); [|lra]. rewrite Rmult_0_r.
    transitivity ((a * x1 ^ 3 + b * x1 ^ 2 + c * x1 + d)
                  - (a * x4 ^ 3 + b * x4 ^ 2 + c * x4 + d)); [ring|lra]. }
  assert (R123 : a * (x1 + x2 + x3) + b = 0).
  { apply (Rmult_eq_reg_l (x2 - x3)); [|lra]. rewrite Rmult_0_r.
    transitivity ((a * (x1 ^ 2 + x1 * x2 + x2 ^ 2) + b * (x1 + x2) + c)
                  - (a * (x1 ^ 2 + x1 * x3 + x3 ^ 2) + b * (x1 + x3) + c)); [ring|lra]. }
  assert (R124 : a * (x1 + x2 + x4) + b = 0).
  { apply (Rmult_eq_reg_l (x2 - x4)); [|lra]. rewrite Rmult_0_r.
    transitivity ((a * (x1 ^ 2 + x1 * x2 + x2 ^ 2) + b * (x1 + x2) + c)
                  - (a * (x1 ^ 2 + x1 * x4 + x4 ^ 2) + b * (x1 + x4) + c)); [ring|lra]. }
  assert (A : a = 0).
  { apply (Rmult_eq_reg_l (x3 - x4)); [|lra]. rewrite Rmult_0_r.
    transitivity ((a * (x1 + x2 + x3) + b) - (a * (x1 + x2 + x4) + b)); [ring|lra]. }
  subst a.
  assert (B : b = 0) by lra. subst b.
  assert (C : c = 0) by lra. subst c.
  repeat split; lra.
Qed.

Lemma gap_nonneg (c c' x y : list R) : 0 <= gap c c' x y.
Proof.
  revert y. induction x as [|xi x IH]; intros [|yi y]; simpl; try lra.
  specialize (IH y).
  pose proof (Rle_0_sqr (poly1d c xi - poly1d c' xi)) as Hsq.
  unfold Rsqr in Hsq. lra.
Qed.

Lemma square_nonpos (t : R) : t * t <= 0 → t = 0.
Proof.
  intros H. destruct (Req_dec t 0) as [|Hne]; [assumption|].
  pose proof (Rsqr_pos_lt t Hne) as Hpos. unfold Rsqr in Hpos. lra.
Qed.

Lemma gap_zero (c c' x y : list R) :
  length x = length y → gap c c' x y <= 0 →
  ∀ xi, xi ∈ x → poly1d c xi = poly1d c' xi.
Proof.
  revert y. induction x as [|x0 x IH]; intros [|y0 y]; simpl; try discriminate.
  - intros _ _ xi Hxi. inversion Hxi.
  - intros [= Hlen] Hgap xi Hxi.
    pose proof (gap_nonneg c c' x y).
    pose proof (Rle_0_sqr (poly1d c x0 - poly1d c' x0)) as Hsq.
    unfold Rsqr in Hsq.
    apply elem_of_cons in Hxi as [->|Hxi].
    + apply Rminus_diag_uniq, square_nonpos. lra.
    + apply (IH y Hlen); [lra | exact Hxi].
Qed.

(** The parallelogram identity for the residuals of two cubics and of the
    cubic half-way between them. *)
Lemma sse_midpoint (a b c d a' b' c' d' : R) (x y : list R) :
  sse [(a + a') / 2; (b + b') / 2; (c + c') / 2; (d + d') / 2] x y
  = (sse [a; b; c; d] x y + sse [a'; b'; c'; d'] x y) / 2
    - gap [a; b; c; d] [a'; b'; c'; d'] x y / 4.
Proof.
  revert y. induction x as [|xi x IH]; intros [|yi y]; simpl; try lra.
  rewrite IH, !poly1d_cubic. field.
Qed.

(** With four distinct positions among the samples, the least-squares
    cubic is unique. *)
Lemma least_squares_cubic_unique (x y c c' : list R) :
  length x = length y →
  Spec.distinct_positions 4 x →
  least_squares 3 x y c → least_squares 3 x y c' → c = c'.
Proof.
  intros Hlen (l & Hl & Hnd & Hsub) [Hc Hmin] [Hc' Hmin'].
  destruct (length4 c Hc) as (a & b & c0 & d & ->).
  destruct (length4 c' Hc') as (a' & b' & c0' & d' & ->).
  destruct (length4 l Hl) as (x1 & x2 & x3 & x4 & ->).
  pose proof (sse_midpoint a b c0 d a' b' c0' d' x y) as Hmid.
  pose proof (Hmin [(a + a') / 2; (b + b') / 2; (c0 + c0') / 2; (d + d') / 2] eq_refl).
  pose proof (Hmin' [(a + a') / 2; (b + b') / 2; (c0 + c0') / 2; (d + d') / 2] eq_refl).
  assert (Hgap : gap [a; b; c0; d] [a'; b'; c0'; d'] x y <= 0) by lra.
  pose proof (gap_zero _ _ x y Hlen Hgap) as Heq.
  assert (Hroot : ∀ xi, xi ∈ [x1; x2; x3; x4] →
                        poly1d [a - a'; b - b'; c0 - c0'; d - d'] xi = 0).
  { intros xi Hxi. specialize (Heq xi (Hsub xi Hxi)).
    rewrite !poly1d_cubic in *. lra. }
  apply NoDup_cons in Hnd as [N1 Hnd].
  apply NoDup_cons in Hnd as [N2 Hnd].
  apply NoDup_cons in Hnd as [N3 _].
  destruct (cubic_four_roots (a - a') (b - b') (c0 - c0') (d - d') x1 x2 x3 x4)
    as (? & ? & ? & ?);
    try (intros E; subst;
         solve [apply N1; set_solver | apply N2; set_solver | apply N3; set_solver]);
    try (apply Hroot; set_solver).
  repeat f_equal; lra.
Qed.

End CubicFacts.

(** ** Claims on the wavelength calibrator *)

Module CalibrationClaims.
Import Quasar CubicFacts Examples.

Local Open Scope R_scope.

Lemma sse_nonneg (c x y : list R) : 0 <= sse c x y.
Proof.
  revert y. induction x as [|xi x IH]; intros [|yi y]; simpl; try lra.
  specialize (IH y).
  pose proof (Rle_0_sqr (poly1d c xi - yi)) as Hsq. unfold Rsqr in Hsq. lra.
Qed.

Lemma sum_sq_nonneg (r : list R) : 0 <= sum_sq r.
Proof.
  induction r as [|a r IH]; simpl; [lra|].
  pose proof (pow2_ge_0 a). lra.
Qed.

Lemma sum_sq_bounds (r : list R) (i : nat) (a : R) :
  r !! i = Some a → a ^ 2 <= sum_sq r.
Proof.
  revert i. induction r as [|b r IH]; intros [|i]; simpl; try discriminate.
  - intros [= ->]. pose proof (sum_sq_nonneg r). lra.
  - intros H. specialize (IH i H). pose proof (pow2_ge_0 b). lra.
Qed.

Lemma lookup_residuals (f : R → R) (pix wav : list R) (i : nat) (x y : R) :
  pix !! i = Some x → wav !! i = Some y →
  residuals (map f pix) wav !! i = Some (f x - y).
Proof.
  revert wav i. induction pix as [|p pix IH]; intros [|v wav] [|i]; simpl;
    try discriminate.
  - intros [= ->] [= ->]. reflexivity.
  - apply IH.
Qed.

(** What a call of [calibration] on samples of equal, positive length does. *)
Lemma calibration_run {O} (lstsq : list R → list R → nat → list R)
      (pix wav pix_axis : list R) (w : world O) :
  length pix = length wav → pix ≠ [] →
  let fit := lstsq pix wav 3%nat in
  let RMS := rms (poly1d fit) pix wav in
  calibration lstsq pix wav pix_axis w
  = (Ok (map (poly1d fit) pix_axis),
     mk_world (globals w)
       (output w ++
        [Print [VStr "RMS: "; VNum RMS; VStr " Angstroms"];
         PltFigure 9 6;
         PltScatter wav (residuals (map (poly1d fit) pix) wav)
                    [VStr "RMS: "; VNum RMS; VStr "A"];
         PltTitle "Residuals of the wavelength calibration fit";
         PltXlabel "Input Wavelengths (A)";
         PltYlabel "Residuals (A)";
         PltAxhline 0;
         PltLegend;
         PltShow])).
Proof.
  intros Hlen Hne fit RMS. unfold calibration, polyfit.
  destruct pix as [|p pix]; [congruence|].
  rewrite <- Hlen. simpl length. rewrite Nat.eqb_refl. simpl.
  unfold mbind, io_bind, lift, emit, mret, io_ret. simpl.
  rewrite <- !app_assoc. reflexivity.
Qed.


Lemma distinct_pix4 : Spec.distinct_positions 4%nat pix4.
Proof.
  exists pix4. split; [reflexivity|]. split; [|auto].
  unfold pix4. repeat (apply NoDup_cons; split);
    rewrite ?not_elem_of_cons, ?elem_of_nil;
    try (repeat split; try tauto; lra).
  apply NoDup_nil_2.
Qed.



(** The zero polynomial is a least-squares cubic of the five lines. *)
Lemma least_squares_zero5 : least_squares 3%nat pix5 wav5 (lstsq_zero pix5 wav5 3%nat).
Proof.
  split; [reflexivity|]. intros c' Hc'.
  destruct (length4 c' Hc') as (a & b & c & d & ->).
  unfold lstsq_zero, pix5, wav5, sse. simpl repeat. rewrite !poly1d_cubic.
  pose proof (Rle_0_sqr (a * 0 ^ 3 + b * 0 ^ 2 + c * 0 + d)) as H0.
  pose proof (Rle_0_sqr (a * 1 ^ 3 + b * 1 ^ 2 + c * 1 + d)) as H1.
  pose proof (Rle_0_sqr (a * 2 ^ 3 + b * 2 ^ 2 + c * 2 + d)) as H2.
  pose proof (Rle_0_sqr (a * 3 ^ 3 + b * 3 ^ 2 + c * 3 + d)) as H3.
  pose proof (Rle_0_sqr (a * 4 ^ 3 + b * 4 ^ 2 + c * 4 + d)) as H4.
  unfold Rsqr in *. lra.
Qed.

Lemma rms_zero5 : rms (poly1d (lstsq_zero pix5 wav5 3%nat)) pix5 wav5 = sqrt 14.
Proof.
  unfold rms, lstsq_zero, pix5, wav5. simpl repeat. simpl map.
  f_equal. rewrite !poly1d_cubic. simpl. field.
Qed.

Lemma sqrt14_lt_6 : sqrt 14 < 6.
Proof.
  rewrite <- (sqrt_square 6) by lra.
  apply sqrt_lt_1; lra.
Qed.

(** C7, as stated, fails: on five lines whose least-squares cubic is the
    zero polynomial, the reported RMS is the square root of 14, and the
    fitted mapping misses the third wavelength by 6. *)
Lemma calibration_residual_exceeds_rms :
  least_squares 3%nat pix5 wav5 (lstsq_zero pix5 wav5 3%nat) ∧
  ∃ RMS rest,
    output (snd (calibration lstsq_zero pix5 wav5 [] (fresh (O := ()))))
    = Print [VStr "RMS: "; VNum RMS; VStr " Angstroms"] :: rest ∧
    pix5 !! 2%nat = Some 2 ∧ wav5 !! 2%nat = Some 6 ∧
    RMS < Rabs (poly1d (lstsq_zero pix5 wav5 3%nat) 2 - 6).
Proof.
  split; [exact least_squares_zero5|].
  eexists _, _. split.
  { rewrite calibration_run by (reflexivity || discriminate). reflexivity. }
  split; [reflexivity|]. split; [reflexivity|].
  rewrite rms_zero5. unfold lstsq_zero. simpl repeat. rewrite poly1d_cubic.
  replace (0 * 2 ^ 3 + 0 * 2 ^ 2 + 0 * 2 + 0 - 6) with (Ropp 6) by ring.
  rewrite Rabs_Ropp, Rabs_pos_eq by lra.
  exact sqrt14_lt_6.
Qed.

(** C7, amended: the RMS that [calibration] reports is the root of the
    mean squared residual between the back-predicted and the input
    wavelengths, and the fitted mapping reproduces each input wavelength
    to within that RMS times the square root of the number of lines. *)
Theorem calibration_residuals_bounded {O} (lstsq : list R → list R → nat → list R)
    (pix wav pix_axis : list R) (w : world O) :
  length pix = length wav → pix ≠ [] →
  ∃ wav_axis w' RMS rest,
    calibration lstsq pix wav pix_axis w = (Ok wav_axis, w') ∧
    output w' = output w ++ Print [VStr "RMS: "; VNum RMS; VStr " Angstroms"] :: rest ∧
    RMS = sqrt (sum_sq (residuals (map (poly1d (lstsq pix wav 3%nat)) pix) wav)
                / INR (length pix)) ∧
    ∀ i x y, pix !! i = Some x → wav !! i = Some y →
             Rabs (poly1d (lstsq pix wav 3%nat) x - y) <= sqrt (INR (length pix)) * RMS.
Proof.
  intros Hlen Hne.
  eexists _, _, _, _. split; [apply calibration_run; assumption|].
  split; [reflexivity|]. split; [reflexivity|].
  intros i x y Hx Hy. unfold rms.
  set (r := residuals (map (poly1d (lstsq pix wav 3%nat)) pix) wav).
  assert (Hn : 0 < INR (length pix)).
  { apply lt_0_INR. destruct pix; [congruence | simpl; lia]. }
  rewrite <- sqrt_mult_alt by lra.
  replace (INR (length pix) * (sum_sq r / INR (length pix))) with (sum_sq r)
    by (field; lra).
  rewrite <- sqrt_Rsqr_abs. apply sqrt_le_1_alt.
  pose proof (sum_sq_bounds r i _ (lookup_residuals _ pix wav i x y Hx Hy)) as Hb.
  unfold Rsqr. lra.
Qed.

Lemma calibration_residuals_bounded_witness :
  ∃ wav_axis w' RMS rest,
    calibration lstsq_zero pix5 wav5 pix5 (fresh (O := ())) = (Ok wav_axis, w') ∧
    output w' = [] ++ Print [VStr "RMS: "; VNum RMS; VStr " Angstroms"] :: rest ∧
    RMS = sqrt (sum_sq (residuals (map (poly1d (lstsq_zero pix5 wav5 3%nat)) pix5) wav5)
                / INR (length pix5)) ∧
    ∀ i x y, pix5 !! i = Some x → wav5 !! i = Some y →
             Rabs (poly1d (lstsq_zero pix5 wav5 3%nat) x - y) <= sqrt (INR (length pix5)) * RMS.
Proof.
  apply (calibration_residuals_bounded lstsq_zero pix5 wav5 pix5 fresh).
  - reflexivity.
  - discriminate.
Defined.

End CalibrationClaims.

(** ** Claims on the centroid refiner *)

Module CentroidClaims.
Import PyFacts Quasar Examples.

(** Inside the sequence, the window holds the [2 * width] entries from
    [centre - width] on. *)
Lemma lookup_zoom (width : Z) (a : list R) (centre : Z) (k : nat) :
  (0 ≤ width ≤ centre)%Z → (centre + width ≤ Z.of_nat (length a))%Z →
  zoom width a centre !! k =
  if decide (k < Z.to_nat (2 * width)) then a !! (Z.to_nat (centre - width) + k)
  else None.
Proof.
  intros Hw Hc. unfold zoom. destruct (decide (k < Z.to_nat (2 * width))) as [Hk|Hk].
  - apply lookup_slice; lia.
  - apply lookup_ge_None_2. rewrite length_slice by lia. lia.
Qed.

(** C10: two spectra of one length that agree on the indices of the window
    around a centre that is at least [width] away from both ends give the
    same refined position, or the same exception. *)
Theorem centroid_peak_window_only (curve_fit : fitter)
    (width : Z) (x y y' : list R) (centre : Z) :
  length y = length y' →
  (0 ≤ width ≤ centre)%Z →
  (centre + width ≤ Z.of_nat (length y))%Z →
  (∀ i : nat, (centre - width ≤ Z.of_nat i < centre + width)%Z → y !! i = y' !! i) →
  centroid_peak curve_fit width x y centre = centroid_peak curve_fit width x y' centre.
Proof.
  intros Hlen Hw Hc Hagree. unfold centroid_peak.
  replace (zoom width y' centre) with (zoom width y centre); [reflexivity|].
  apply list_eq. intros k.
  rewrite !lookup_zoom by lia.
  destruct (decide (k < Z.to_nat (2 * width))); [|reflexivity].
  apply Hagree. lia.
Qed.

Lemma centroid_peak_window_only_witness :
  centroid_peak curve_fit_guess 2 (ramp 6) [1; 2; 3; 4; 5; 6]%R 3
  = centroid_peak curve_fit_guess 2 (ramp 6) [9; 2; 3; 4; 5; 7]%R 3.
Proof.
  apply (centroid_peak_window_only curve_fit_guess 2 (ramp 6)
           [1; 2; 3; 4; 5; 6]%R [9; 2; 3; 4; 5; 7]%R 3).
  - reflexivity.
  - lia.
  - simpl. lia.
  - intros i Hi.
    destruct i as [|[|[|[|[|i]]]]]; try reflexivity; lia.
Defined.

(** C6, as stated, fails: around position 5 of an 11-sample spectrum the
    refiner hands the fitter the 10 samples of positions 0 to 9, not the
    11 samples of positions 0 to 10; and around position 3, fewer than 5
    samples from the start, the slice is empty and the refiner ends in an
    [IndexError] before any fit. *)
Lemma centroid_window_has_ten_samples :
  zoom 5 (ramp 11) 5 = arange 0 10 ∧
  Spec.symmetric_window (ramp 11) 5 = arange 0 11 ∧
  zoom 5 (ramp 11) 5 ≠ Spec.symmetric_window (ramp 11) 5 ∧
  centroid_peak curve_fit_probe 5 (ramp 11) (ramp 11) 5 = Ok (INR 10) ∧
  zoom 5 (ramp 11) 3 = [] ∧
  centroid_peak curve_fit_probe 5 (ramp 11) (ramp 11) 3 = Raise IndexError.
Proof.
  split; [reflexivity|]. split; [reflexivity|].
  split; [|repeat split; reflexivity].
  intros H. apply (f_equal length) in H. vm_compute in H. discriminate.
Qed.

(** C6, amended: for a position at least 5 samples away from both ends of
    the spectrum, the refiner takes the window of the 10 samples from
    [position - 5] to [position + 4], fits the 4-parameter Gaussian
    [gauss] to it from the initial guess (baseline 0, amplitude the sample
    at the position, centre the position, width 1), and returns the third
    fitted parameter, the centre; an exception of the fitter is passed
    on. *)
Theorem centroid_peak_window (curve_fit : fitter) (spectrum : list R) (centre : Z) :
  (5 ≤ centre)%Z →
  (centre + 5 ≤ Z.of_nat (length spectrum))%Z →
  let x_zoom := map (fun k => IZR (centre - 5 + Z.of_nat k)) (seq 0 10) in
  let y_zoom := map (fun k => nth (Z.to_nat (centre - 5) + k) spectrum 0%R) (seq 0 10) in
  let p0 := [0%R; nth (Z.to_nat centre) spectrum 0%R; IZR centre; 1%R] in
  centroid_peak curve_fit 5 (arange 0 (Z.of_nat (length spectrum))) spectrum centre
  = match curve_fit gauss x_zoom y_zoom p0 with
    | Ok (parameters, _) => index parameters 2
    | Raise e => Raise e
    end.
Proof.
  intros Hlo Hhi x_zoom y_zoom p0.
  assert (Hx : zoom 5 (arange 0 (Z.of_nat (length spectrum))) centre = x_zoom).
  { apply list_eq. intros k.
    rewrite lookup_zoom by (rewrite ?length_arange; lia).
    unfold x_zoom. change (map ?f ?l) with (f <$> l).
    rewrite list_lookup_fmap.
    destruct (decide (k < Z.to_nat (2 * 5))) as [Hk|Hk].
    - rewrite lookup_arange, lookup_seq_lt by lia. simpl. do 2 f_equal. lia.
    - rewrite lookup_seq_ge by lia. reflexivity. }
  assert (Hy : zoom 5 spectrum centre = y_zoom).
  { apply list_eq. intros k.
    rewrite lookup_zoom by lia.
    unfold y_zoom. change (map ?f ?l) with (f <$> l).
    rewrite list_lookup_fmap.
    destruct (decide (k < Z.to_nat (2 * 5))) as [Hk|Hk].
    - rewrite lookup_seq_lt by lia. simpl.
      destruct (lookup_lt_is_Some_2 spectrum (Z.to_nat (centre - 5) + k)) as [v Hv];
        [lia|].
      rewrite Hv. f_equal. symmetry. apply nth_lookup_Some. exact Hv.
    - rewrite lookup_seq_ge by lia. reflexivity. }
  assert (Ha : index y_zoom 5 = Ok (nth (Z.to_nat centre) spectrum 0%R)).
  { apply (index_lookup y_zoom 5). unfold y_zoom.
    change (map ?f ?l) with (f <$> l).
    rewrite list_lookup_fmap, lookup_seq_lt by lia. simpl.
    do 2 f_equal. lia. }
  assert (Hc : index x_zoom 5 = Ok (IZR centre)).
  { apply (index_lookup x_zoom 5). unfold x_zoom.
    change (map ?f ?l) with (f <$> l).
    rewrite list_lookup_fmap, lookup_seq_lt by lia. simpl.
    do 2 f_equal. lia. }
  unfold centroid_peak. rewrite Hx, Hy. subst p0. clearbody x_zoom y_zoom.
  rewrite Ha. cbn [mbind result_bind]. rewrite Hc. cbn [mbind result_bind].
  unfold fit_gaussian_centroid.
  destruct (curve_fit gauss x_zoom y_zoom _) as [[parameters covariance]|e];
    reflexivity.
Qed.

Lemma centroid_peak_window_witness :
  centroid_peak curve_fit_guess 5 (arange 0 (Z.of_nat (length (ramp 11)))) (ramp 11) 5
  = match curve_fit_guess gauss
            (map (fun k => IZR (5 - 5 + Z.of_nat k)) (seq 0 10))
            (map (fun k => nth (Z.to_nat (5 - 5) + k) (ramp 11) 0%R) (seq 0 10))
            [0%R; nth (Z.to_nat 5) (ramp 11) 0%R; IZR 5; 1%R] with
    | Ok (parameters, _) => index parameters 2
    | Raise e => Raise e
    end.
Proof.
  apply (centroid_peak_window curve_fit_guess (ramp 11) 5).
  - lia.
  - simpl. lia.
Defined.


Lemma collect_ok {A B} (f : A → result B) (pix : list A) :
  (∀ p, p ∈ pix → ∃ c, f p = Ok c) →
  ∀ acc, ∃ refined,
    foldM (fun pix_refined p => c ← f p; mret (pix_refined ++ [c])) pix acc = Ok refined.
Proof.
  induction pix as [|p pix IH]; intros Hall acc; simpl.
  - eauto.
  - destruct (Hall p) as [c ->]; [left|]. simpl.
    apply IH. intros q Hq. apply Hall. right. exact Hq.
Qed.



Lemma int_7 : int 7 = 7%Z.
Proof.
  unfold int. destruct (Rle_dec 0 7) as [_|H]; [|lra].
  symmetry. apply Int_part_spec. lra.
Qed.



End CentroidClaims.

(** ** Claims on statelessness *)

Module NamespaceClaims.
Import Quasar Astrometry Examples CalibrationClaims.

Lemma bind_setglobal {O A} (name : string) (v : O) (f : () → io O A) (w : world O) :
  (setglobal name v ≫= f) w = f () (mk_world (<[name := v]> (globals w)) (output w)).
Proof. reflexivity. Qed.

Lemma bind_evalglobal {O A} (name : string) (v : O) (f : O → io O A) (w : world O) :
  globals w !! name = Some v → (evalglobal name ≫= f) w = f v w.
Proof.
  intros H. unfold mbind, io_bind, evalglobal. rewrite H. reflexivity.
Qed.

Lemma bind_lift {O A B} (r : result A) (f : A → io O B) (w : world O) :
  (lift r ≫= f) w = match r with Ok a => f a w | Raise e => (Raise e, w) end.
Proof. reflexivity. Qed.

Lemma bind_assoc {O A B C} (m : io O A) (g : A → io O B) (f : B → io O C)
      (w : world O) :
  ((m ≫= g) ≫= f) w = (m ≫= (fun a => g a ≫= f)) w.
Proof.
  unfold mbind, io_bind. destruct (m w) as [[a|e] w']; reflexivity.
Qed.

Lemma names_distinct (k : nat) :
  plot_cut k ≠ polyxena_cut k ∧ r_ k ≠ plot_cut k ∧ r_ k ≠ polyxena_cut k.
Proof. unfold plot_cut, polyxena_cut, r_. simpl. repeat split; intros [=]. Qed.

(** One iteration binds four names, in this order. *)
Lemma cut_star_run (polyxena : ndarray) (listPlots : list obj) (i : nat) (x y : R)
      (w : world obj) :
  let cut := slice2 polyxena (int (y - 30)) (int (y + 30))
                             (int (x - 30)) (int (x + 30)) in
  cut_star polyxena listPlots i x y w
  = (Ok (listPlots ++ [Figure (0, 60)%Z (0, 60)%Z]),
     mk_world
       (<[c_ (i + 1) := CrossRenderer 30 30 (13 / 10) "red" 10]>
          (<[r_ (i + 1) := ImageRenderer cut (fst (shape cut)) (snd (shape cut)) 0 0]>
             (<[plot_cut (i + 1) := Figure (0, 60)%Z (0, 60)%Z]>
                (<[polyxena_cut (i + 1) := Cutout cut]> (globals w)))))
       (output w)).
Proof.
  intros cut. destruct (names_distinct (i + 1)) as (H1 & H2 & H3).
  unfold cut_star. fold cut. clearbody cut.
  repeat first
    [ rewrite bind_setglobal; cbn [globals output]
    | rewrite bind_assoc
    | erewrite bind_evalglobal
        by (simpl; repeat (rewrite lookup_insert_ne by congruence);
            apply lookup_insert_eq)
    | rewrite bind_lift; simpl array_of; simpl shape_of; cbn iota ].
  reflexivity.
Qed.

Lemma insert_keeps (m : gmap string obj) (i j : string) (v : obj) :
  is_Some (m !! j) → is_Some (<[i := v]> m !! j).
Proof. intros H. rewrite lookup_insert. case_decide; eauto. Qed.

(** The loop over the stars never raises, returns one figure per star,
    produces no output, binds the names of its stars, unbinds nothing,
    and leaves the value of every other name as it was. *)
Lemma cut_stars_run (polyxena : ndarray) (stars : list (nat * R * R)) :
  ∀ (listPlots : list obj) (w : world obj),
  ∃ w', cut_stars polyxena stars listPlots w
        = (Ok (listPlots ++ repeat (Figure (0, 60)%Z (0, 60)%Z) (length stars)), w') ∧
        output w' = output w ∧
        (∀ name,
           (∀ i x y, (i, x, y) ∈ stars →
              name ∉ [polyxena_cut (i + 1); plot_cut (i + 1); r_ (i + 1); c_ (i + 1)]) →
           globals w' !! name = globals w !! name) ∧
        (∀ name, is_Some (globals w !! name) → is_Some (globals w' !! name)) ∧
        (∀ i x y name, (i, x, y) ∈ stars →
           name ∈ [polyxena_cut (i + 1); plot_cut (i + 1); r_ (i + 1); c_ (i + 1)] →
           is_Some (globals w' !! name)).
Proof.
  induction stars as [|[[i x] y] stars IH]; intros listPlots w; simpl.
  - exists w. rewrite app_nil_r. repeat split; try reflexivity; auto.
    intros i x y name H. inversion H.
  - unfold mbind at 1, io_bind at 1. rewrite cut_star_run.
    match goal with |- context [cut_stars _ _ ?lp ?w1] =>
      destruct (IH lp w1) as (w' & Hrun & Hout & Hframe & Hmono & Hbound)
    end.
    exists w'. rewrite Hrun, <- app_assoc. split; [reflexivity|].
    split; [exact Hout|]. split; [|split].
    + intros name Hname. rewrite Hframe.
      * specialize (Hname i x y ltac:(left)).
        rewrite !not_elem_of_cons in Hname.
        destruct Hname as (? & ? & ? & ? & _). simpl.
        rewrite !lookup_insert_ne by congruence. reflexivity.
      * intros j x' y' Hj. apply (Hname j x' y'). right. exact Hj.
    + intros name Hname. apply Hmono. simpl.
      do 4 apply insert_keeps. exact Hname.
    + intros j x' y' name Hj Hname.
      apply elem_of_cons in Hj as [Hj|Hj];
        [|exact (Hbound j x' y' name Hj Hname)].
      injection Hj as -> -> ->.
      apply Hmono. simpl. rewrite !elem_of_cons in Hname.
      destruct Hname as [->|[->|[->|[->|Hnil]]]]; [..|inversion Hnil].
      * do 3 apply insert_keeps. rewrite lookup_insert_eq. eauto.
      * do 2 apply insert_keeps. rewrite lookup_insert_eq. eauto.
      * apply insert_keeps. rewrite lookup_insert_eq. eauto.
      * rewrite lookup_insert_eq. eauto.
Qed.

Lemma elem_of_zip_enumerate (xcoors ycoors : list R) :
  ∀ k i x y, (i, x, y) ∈ zip_enumerate k xcoors ycoors →
             k ≤ i < k + Nat.min (length xcoors) (length ycoors).
Proof.
  revert ycoors. induction xcoors as [|x0 xs IH]; intros [|y0 ys] k i x y; simpl;
    try (intros H; inversion H; fail).
  intros H. apply elem_of_cons in H as [[= -> -> ->]|H]; [lia|].
  apply IH in H. lia.
Qed.

Lemma zip_enumerate_covers (xcoors ycoors : list R) :
  ∀ k i, k ≤ i < k + Nat.min (length xcoors) (length ycoors) →
         ∃ x y, (i, x, y) ∈ zip_enumerate k xcoors ycoors.
Proof.
  revert ycoors. induction xcoors as [|x0 xs IH]; intros [|y0 ys] k i; simpl;
    try lia.
  intros Hi. destruct (decide (i = k)) as [->|Hne].
  - exists x0, y0. left.
  - destruct (IH ys (S k) i) as (x & y & H); [lia|].
    exists x, y. right. exact H.
Qed.

Lemma length_zip_enumerate (xcoors ycoors : list R) :
  ∀ k, length (zip_enumerate k xcoors ycoors)
       = Nat.min (length xcoors) (length ycoors).
Proof.
  revert ycoors. induction xcoors as [|x0 xs IH]; intros [|y0 ys] k; simpl;
    try reflexivity.
  rewrite IH. reflexivity.
Qed.

Lemma elem_of_bound_names (name : string) (n : nat) :
  name ∈ bound_names n ↔
  ∃ i, i < n ∧
       name ∈ [polyxena_cut (i + 1); plot_cut (i + 1); r_ (i + 1); c_ (i + 1)].
Proof.
  unfold bound_names. rewrite list_elem_of_In, in_flat_map. split.
  - intros (i & Hi & Hin). apply in_seq in Hi. exists i. split; [lia|].
    apply list_elem_of_In. exact Hin.
  - intros (i & Hi & Hin). exists i. split; [apply in_seq; lia|].
    apply list_elem_of_In. exact Hin.
Qed.

(** Statelessness is kept by sequencing. *)
Lemma stateless_ret {O A} (a : A) : stateless (O := O) (mret a).
Proof. exists (Ok a), []. intros [g o]. unfold mret, io_ret. simpl. rewrite app_nil_r. reflexivity. Qed.

Lemma stateless_lift {O A} (r : result A) : stateless (O := O) (lift r).
Proof. exists r, []. intros [g o]. unfold lift. simpl. rewrite app_nil_r. reflexivity. Qed.

Lemma stateless_emit {O} (e : event) : stateless (O := O) (emit e).
Proof. exists (Ok ()), [e]. intros u. reflexivity. Qed.

Lemma stateless_bind {O A B} (m : io O A) (f : A → io O B) :
  stateless m → (∀ a, stateless (f a)) → stateless (m ≫= f).
Proof.
  intros (r & ev & Hm) Hf. destruct r as [a|e].
  - destruct (Hf a) as (r' & ev' & Hfa).
    exists r', (ev ++ ev'). intros u.
    unfold mbind, io_bind. rewrite Hm, Hfa. simpl. rewrite app_assoc. reflexivity.
  - exists (Raise e), ev. intros u.
    unfold mbind, io_bind. rewrite Hm. reflexivity.
Qed.

Ltac stateless_steps :=
  repeat first
    [ apply stateless_emit
    | apply stateless_lift
    | apply stateless_ret
    | apply stateless_bind; [|intros ?] ].

Lemma calibration_stateless {O} (lstsq : list R → list R → nat → list R)
      (pix wav pix_axis : list R) :
  stateless (O := O) (calibration lstsq pix wav pix_axis).
Proof. unfold calibration. stateless_steps. Qed.

Lemma display_2d_stateless {O} (get_limits : ndarray → R * R)
      (image_array : ndarray) (title : string) :
  stateless (O := O) (display_2d get_limits image_array title).
Proof.
  unfold display_2d. destruct (get_limits image_array) as [vmin vmax].
  stateless_steps.
Qed.

Lemma plot_lines_stateless {O} (arc_spectrum pix_refined : list R)
      (wav_labels : list string) (x_label y_label title : string) (fontsize : R) :
  stateless (O := O)
    (plot_lines arc_spectrum pix_refined wav_labels x_label y_label title fontsize).
Proof. unfold plot_lines. stateless_steps. Qed.

(** The grid viewer for one star in the middle of a 100 by 100 image. *)
Lemma polyxenaDisplayGrid_one_star (w : world obj) :
  ∃ w', polyxenaDisplayGrid (flat 100 100) [50%R] [50%R] w
        = (Ok [Figure (0, 60)%Z (0, 60)%Z], w') ∧
        globals w' !! "plot_cut1" = Some (Figure (0, 60)%Z (0, 60)%Z).
Proof.
  unfold polyxenaDisplayGrid. simpl zip_enumerate. simpl cut_stars.
  unfold mbind at 1, io_bind at 1. rewrite cut_star_run.
  eexists. split; [reflexivity|].
  cbn [globals].
  rewrite !lookup_insert_ne by (vm_compute; discriminate).
  apply lookup_insert_eq.
Qed.

(** C8, as stated, fails: a call of the grid viewer for one star, in a
    namespace where [plot_cut1] is not bound, leaves it bound there; the
    grid viewer is not stateless. *)
Lemma polyxenaDisplayGrid_binds_globals :
  (∃ w', polyxenaDisplayGrid (flat 100 100) [50%R] [50%R] fresh
         = (Ok [Figure (0, 60)%Z (0, 60)%Z], w') ∧
         globals (fresh (O := obj)) !! "plot_cut1" = None ∧
         globals w' !! "plot_cut1" = Some (Figure (0, 60)%Z (0, 60)%Z)) ∧
  ¬ stateless (polyxenaDisplayGrid (flat 100 100) [50%R] [50%R]).
Proof.
  destruct (polyxenaDisplayGrid_one_star fresh) as (w' & Hrun & Hbound).
  split.
  - exists w'. split; [exact Hrun|]. split; [reflexivity | exact Hbound].
  - intros (r & events & Hst).
    rewrite (Hst fresh) in Hrun. injection Hrun as _ <-.
    simpl in Hbound. discriminate.
Qed.

(** C8, amended: the operations of the spectroscopy script are stateless.
    Those that print or draw ([display_2d], [calibration], [plot_lines])
    return a result and append output that depend on their arguments only,
    and leave the namespace as it was; the others ([background],
    [centroid_peak], [get_centroid_locations]) are functions of their
    arguments.  The grid viewer is not stateless: a call binds, for each of
    its [n] stars, the four names [polyxena_cut<i>], [plot_cut<i>], [r_<i>]
    and [c_<i>] in the namespace of its module; it never raises, returns one
    figure per star, produces no output of its own, and leaves every other
    name as it was. *)
Theorem namespace_effects (polyxena : ndarray) (xcoors ycoors : list R)
    (w : world obj) (name : string) :
  let n := Nat.min (length xcoors) (length ycoors) in
  name ∉ bound_names n →
  (∀ O get_limits image_array title,
     stateless (O := O) (display_2d get_limits image_array title)) ∧
  (∀ O lstsq pix wav pix_axis,
     stateless (O := O) (calibration lstsq pix wav pix_axis)) ∧
  (∀ O arc_spectrum pix_refined wav_labels x_label y_label title fontsize,
     stateless (O := O)
       (plot_lines arc_spectrum pix_refined wav_labels x_label y_label title fontsize)) ∧
  (∀ O lstsq image y1 y2 y3 y4,
     stateless (O := O) (lift (background lstsq image y1 y2 y3 y4))) ∧
  (∀ O curve_fit width x y centre,
     stateless (O := O) (lift (centroid_peak curve_fit width x y centre))) ∧
  (∀ O curve_fit pix spectrum,
     stateless (O := O) (lift (get_centroid_locations curve_fit pix spectrum))) ∧
  ∃ w', polyxenaDisplayGrid polyxena xcoors ycoors w
        = (Ok (repeat (Figure (0, 60)%Z (0, 60)%Z) n), w') ∧
        output w' = output w ∧
        globals w' !! name = globals w !! name ∧
        ∀ bound, bound ∈ bound_names n → is_Some (globals w' !! bound).
Proof.
  intros n Hname.
  split; [intros; apply display_2d_stateless|].
  split; [intros; apply calibration_stateless|].
  split; [intros; apply plot_lines_stateless|].
  do 3 (split; [intros; apply stateless_lift|]).
  unfold polyxenaDisplayGrid.
  destruct (cut_stars_run polyxena (zip_enumerate 0 xcoors ycoors) [] w)
    as (w' & Hrun & Hout & Hframe & _ & Hbound).
  rewrite length_zip_enumerate in Hrun.
  exists w'. split; [exact Hrun|]. split; [exact Hout|]. split.
  - apply Hframe. intros i x y Hi Hin. apply Hname.
    apply elem_of_bound_names. exists i. split; [|exact Hin].
    apply elem_of_zip_enumerate in Hi. fold n in Hi. lia.
  - intros bound Hb. apply elem_of_bound_names in Hb as (i & Hi & Hin).
    destruct (zip_enumerate_covers xcoors ycoors 0 i) as (x & y & Hxy);
      [fold n; lia|].
    exact (Hbound i x y bound Hxy Hin).
Qed.

Lemma namespace_effects_witness :
  let w := mk_world {["fits" := Figure (0, 1)%Z (0, 1)%Z]} [] in
  (∀ O get_limits image_array title,
     stateless (O := O) (display_2d get_limits image_array title)) ∧
  (∀ O lstsq pix wav pix_axis,
     stateless (O := O) (calibration lstsq pix wav pix_axis)) ∧
  (∀ O arc_spectrum pix_refined wav_labels x_label y_label title fontsize,
     stateless (O := O)
       (plot_lines arc_spectrum pix_refined wav_labels x_label y_label title fontsize)) ∧
  (∀ O lstsq image y1 y2 y3 y4,
     stateless (O := O) (lift (background lstsq image y1 y2 y3 y4))) ∧
  (∀ O curve_fit width x y centre,
     stateless (O := O) (lift (centroid_peak curve_fit width x y centre))) ∧
  (∀ O curve_fit pix spectrum,
     stateless (O := O) (lift (get_centroid_locations curve_fit pix spectrum))) ∧
  ∃ w', polyxenaDisplayGrid (flat 100 100) [50%R] [50%R] w
        = (Ok (repeat (Figure (0, 60)%Z (0, 60)%Z) 1), w') ∧
        output w' = output w ∧
        globals w' !! "fits" = globals w !! "fits" ∧
        ∀ bound, bound ∈ bound_names 1 → is_Some (globals w' !! bound).
Proof.
  intros w.
  apply (namespace_effects (flat 100 100) [50%R] [50%R] w "fits").
  vm_compute. intros H.
  repeat (apply elem_of_cons in H as [H|H]; [discriminate|]).
  inversion H.
Defined.

End NamespaceClaims.

(** ** More on sequences and arrays *)

Module MoreFacts.
Import PyFacts NpFacts.

(** A slice with bounds in order reads the sequence from [lo] up to, and
    without, [hi]; what lies beyond the sequence is left out. *)
Lemma lookup_slice_clipped {A} (a : list A) (lo hi : Z) (k : nat) :
  (0 ≤ lo ≤ hi)%Z →
  slice a lo hi !! k =
  if decide (Z.to_nat lo + k < Z.to_nat hi) then a !! (Z.to_nat lo + k) else None.
Proof.
  intros H. unfold slice, clamp.
  destruct (Z.ltb_spec lo 0); [lia|]. destruct (Z.ltb_spec hi 0); [lia|].
  rewrite lookup_take, lookup_drop.
  destruct (decide (k < Z.to_nat hi `min` length a - Z.to_nat lo `min` length a))
    as [Hk|Hk].
  - rewrite decide_True by lia. f_equal. lia.
  - destruct (decide (Z.to_nat lo + k < Z.to_nat hi)) as [Hk'|Hk']; [|reflexivity].
    symmetry. apply lookup_ge_None_2. lia.
Qed.

Lemma lookup_raw_column (image : ndarray) (col i : nat) :
  i < fst (shape image) →
  Spec.raw_column image col !! i = Some (get image i col).
Proof.
  intros Hi. unfold Spec.raw_column.
  change (map ?f ?l) with (f <$> l).
  rewrite list_lookup_fmap, lookup_seq_lt by exact Hi. reflexivity.
Qed.

Lemma lookup_median (a b c : list R) (i : nat) :
  median a b c !! i =
  match a !! i, b !! i, c !! i with
  | Some x, Some y, Some z => Some (median3 x y z)
  | _, _, _ => None
  end.
Proof.
  revert b c i. induction a as [|x a IH]; intros b c i.
  - destruct b, c, i; reflexivity.
  - destruct b as [|y b].
    { destruct c, i; simpl; try destruct (a !! i); reflexivity. }
    destruct c as [|z c].
    { destruct i; simpl; [reflexivity|].
      destruct (a !! i); [destruct (b !! i)|]; reflexivity. }
    destruct i; simpl; [reflexivity | apply IH].
Qed.


(** Two loops whose bodies agree on the elements of the list agree. *)
Lemma foldM_ext {A St} (body body' : St → A → result St) (xs : list A) :
  (∀ s x, x ∈ xs → body s x = body' s x) →
  ∀ s, foldM body xs s = foldM body' xs s.
Proof.
  induction xs as [|x xs IH]; intros Hext s; simpl; [reflexivity|].
  rewrite (Hext s x) by left.
  destruct (body' s x) as [s'|e]; simpl; [|reflexivity].
  apply IH. intros t y Hy. apply Hext. right. exact Hy.
Qed.

End MoreFacts.

(** ** More on the background estimator *)

Module BackgroundExtras.
Import PyFacts NpFacts MoreFacts Quasar BackgroundFacts Examples.

Lemma wf_flat_image (r c : nat) : wf (flat r c).
Proof. apply (wf_zeros_like (mk_ndarray (r, c) [])). Qed.

Lemma length_getcol (image : ndarray) (col : nat) (column : list R) :
  wf image → getcol image col = Ok column → length column = fst (shape image).
Proof.
  intros [Hlen _]. unfold getcol.
  destruct (col <? snd (shape image)); [|discriminate].
  intros [= <-]. rewrite length_map. exact Hlen.
Qed.

(** With at least [y4] rows, whatever samples the estimator collects for a
    column match the row coordinates in number. *)
Lemma length_column_samples (image : ndarray) (N col : nat) (y1 y2 y3 y4 : Z)
      (bkg : list R) :
  wf image →
  (0 ≤ y1 ≤ y2)%Z → (y2 ≤ y3)%Z → (y3 ≤ y4)%Z → (y4 ≤ Z.of_nat (fst (shape image)))%Z →
  column_samples image N col y1 y2 y3 y4 = Ok bkg →
  length bkg = Z.to_nat (y2 - y1) + Z.to_nat (y4 - y3).
Proof.
  intros Hwf H1 H2 H3 H4. unfold column_samples.
  destruct ((col <=? 1) || (Z.of_nat N - 2 <=? Z.of_nat col)%Z).
  - destruct (getcol image col) as [column|e] eqn:Hc; [|discriminate].
    intros [= <-]. apply length_getcol in Hc; [|exact Hwf].
    rewrite length_app, !length_slice by lia. reflexivity.
  - destruct (getcol image (col - 1)) as [c0|e] eqn:Hc0; [|discriminate].
    destruct (getcol image col) as [c1|e] eqn:Hc1; [|discriminate].
    destruct (getcol image (col + 1)) as [c2|e] eqn:Hc2; [|discriminate].
    intros [= <-].
    apply length_getcol in Hc0, Hc1, Hc2; try exact Hwf.
    rewrite length_app, !length_slice
      by (rewrite ?length_median; lia || congruence).
    reflexivity.
Qed.

Section WithSolver.
Variable lstsq : list R → list R → nat → list R.

(** X1: for a quadruple that passes the check, on an image that is not
    empty, the estimator returns exactly when the image has at least [y4]
    rows and at least as many columns as rows. *)
Theorem background_returns_iff (image : ndarray) (y1 y2 y3 y4 : Z) :
  wf image →
  inconsistent y1 y2 y3 y4 = false →
  shape image ≠ (0, 0) →
  (∃ out, background lstsq image y1 y2 y3 y4 = Ok out) ↔
  fst (shape image) ≤ snd (shape image) ∧ (y4 ≤ Z.of_nat (fst (shape image)))%Z.
Proof.
  intros Hwf Hok Hne. split.
  - intros [out Hrun].
    destruct (background_returns_inv lstsq image out y1 y2 y3 y4 Hwf Hrun)
      as [_ [H|H]]; [exact H | contradiction].
  - intros [Hwide Hy4].
    destruct (background_ok lstsq image y1 y2 y3 y4 Hwf Hwide Hy4 Hok)
      as (out & Hrun & _).
    exists out. exact Hrun.
Qed.

(** X2: on an image that is at least as wide as high but has fewer than
    [y4] rows, a quadruple that passes the check ends in the [TypeError] of
    the first column's fit. *)
Theorem background_short_image (image : ndarray) (y1 y2 y3 y4 : Z) :
  wf image →
  inconsistent y1 y2 y3 y4 = false →
  fst (shape image) ≤ snd (shape image) →
  0 < snd (shape image) →
  (Z.of_nat (fst (shape image)) < y4)%Z →
  background lstsq image y1 y2 y3 y4 = Raise TypeError.
Proof.
  intros Hwf Hok Hwide Hcols Hshort. unfold background. rewrite Hok.
  apply inconsistent_false in Hok.
  rewrite Nat.max_r by exact Hwide.
  destruct (snd (shape image)) as [|c] eqn:Hc; [lia|].
  cbn [seq foldM].
  replace (S c) with (snd (shape image)) at 1 by exact Hc.
  rewrite column_samples_ok by (assumption || lia).
  cbn [mbind result_bind]. unfold polyfit, Spec.band_samples.
  rewrite !length_app, !length_arange, !length_slice_clipped,
    !length_column_data by lia.
  destruct (Nat.eqb_spec (Z.to_nat (y2 - y1) + Z.to_nat (y4 - y3)) 0); [lia|].
  match goal with |- context [negb (?a =? ?b)] =>
    destruct (Nat.eqb_spec a b) as [Heq|_]; [lia|]
  end.
  reflexivity.
Qed.

(** In an image with at least [y4] rows, one pass of the loop over the
    columns raises nothing but an [IndexError]. *)
Lemma column_pass_raises (image : ndarray) (y1 y2 y3 y4 : Z) (n N col : nat)
      (s : ndarray) (e : exn) :
  wf image →
  (0 ≤ y1 ≤ y2)%Z → (y2 ≤ y3)%Z → (y3 < y4)%Z → (y4 ≤ Z.of_nat (fst (shape image)))%Z →
  (bkg ← column_samples image N col y1 y2 y3 y4;
   f ← polyfit lstsq (arange y1 y2 ++ arange y3 y4) bkg 2;
   store_column (map (poly1d f) (arange 0 (Z.of_nat n))) col n s) = Raise e →
  e = IndexError.
Proof.
  intros Hwf H1 H2 H3 H4.
  destruct (column_samples image N col y1 y2 y3 y4) as [bkg|e'] eqn:Hs.
  - pose proof (length_column_samples image N col y1 y2 y3 y4 bkg Hwf H1 H2
                  ltac:(lia) H4 Hs) as Hlen.
    cbn [mbind result_bind]. unfold polyfit.
    rewrite length_app, !length_arange, Hlen.
    destruct (Nat.eqb_spec (Z.to_nat (y2 - y1) + Z.to_nat (y4 - y3)) 0); [lia|].
    rewrite Nat.eqb_refl. cbn [negb mbind result_bind].
    unfold store_column.
    apply (foldM_raise (fun e => e = IndexError)).
    intros t i e'. unfold index, setitem.
    repeat (match goal with
            | |- context [if ?b then _ else _] => destruct b
            | |- context [match ?l !! ?i with _ => _ end] => destruct (l !! i)
            end; simpl; try (intros [= <-]; reflexivity)); discriminate.
  - cbn [mbind result_bind]. intros [= <-].
    revert Hs. unfold column_samples, getcol.
    repeat (match goal with
            | |- context [if ?b then _ else _] => destruct b
            end; simpl; try (intros [= <-]; reflexivity)); discriminate.
Qed.

(** X3: on an image with more rows than columns, and at least [y4] rows, a
    quadruple that passes the check ends in an [IndexError]: the loop runs
    over as many columns as the image has rows. *)
Theorem background_tall_image (image : ndarray) (y1 y2 y3 y4 : Z) :
  wf image →
  inconsistent y1 y2 y3 y4 = false →
  snd (shape image) < fst (shape image) →
  (y4 ≤ Z.of_nat (fst (shape image)))%Z →
  background lstsq image y1 y2 y3 y4 = Raise IndexError.
Proof.
  intros Hwf Hok Htall Hy4.
  destruct (background lstsq image y1 y2 y3 y4) as [out|e] eqn:Hrun.
  - destruct (background_returns_inv lstsq image out y1 y2 y3 y4 Hwf Hrun)
      as [_ [[H _]|H]]; [lia | rewrite H in Htall; simpl in Htall; lia].
  - f_equal. revert Hrun. unfold background. rewrite Hok.
    apply inconsistent_false in Hok.
    apply (foldM_raise (fun e => e = IndexError)).
    intros s col e'. apply column_pass_raises; (assumption || lia).
Qed.
End WithSolver.

Lemma background_returns_iff_witness :
  (∃ out, background lstsq_zero (flat 136 200) 0 63 73 135 = Ok out) ↔
  fst (shape (flat 136 200)) ≤ snd (shape (flat 136 200)) ∧
  (135 ≤ Z.of_nat (fst (shape (flat 136 200))))%Z.
Proof.
  apply (background_returns_iff lstsq_zero (flat 136 200) 0 63 73 135).
  - apply wf_flat_image.
  - reflexivity.
  - discriminate.
Defined.

Lemma background_short_image_witness :
  background lstsq_zero (flat 100 200) 0 63 73 135 = Raise TypeError.
Proof.
  apply (background_short_image lstsq_zero (flat 100 200) 0 63 73 135).
  - apply wf_flat_image.
  - reflexivity.
  - simpl. lia.
  - simpl. lia.
  - simpl. lia.
Defined.

Lemma background_tall_image_witness :
  background lstsq_zero (flat 136 100) 0 63 73 135 = Raise IndexError.
Proof.
  apply (background_tall_image lstsq_zero (flat 136 100) 0 63 73 135).
  - apply wf_flat_image.
  - reflexivity.
  - simpl. lia.
  - simpl. lia.
Defined.

End BackgroundExtras.

(** ** Least-squares quadratics *)

Module QuadraticFacts.
Import CubicFacts CalibrationClaims.

Local Open Scope R_scope.






(** The polynomial that the samples lie on is a least-squares polynomial of
    its degree. *)
Lemma exact_fit_least_squares (deg : nat) (c x : list R) :
  length c = S deg → least_squares deg x (map (poly1d c) x) c.
Proof.
  intros Hc. split; [exact Hc|]. intros c' _.
  replace (sse c x (map (poly1d c) x)) with 0; [apply sse_nonneg|].
  induction x as [|xi x IH]; simpl; [reflexivity|]. rewrite <- IH. ring.
Qed.

End QuadraticFacts.

(** ** What the background estimator reads, and what it recovers *)

Module BackgroundBands.
Import PyFacts NpFacts MoreFacts Quasar BackgroundFacts QuadraticFacts Examples.

Lemma getcol_spec (image : ndarray) (col : nat) :
  wf image →
  getcol image col =
  if col <? snd (shape image) then Ok (Spec.raw_column image col)
  else Raise IndexError.
Proof.
  intros Hwf. destruct (Nat.ltb_spec col (snd (shape image))) as [H|H].
  - apply getcol_ok; assumption.
  - unfold getcol. destruct (Nat.ltb_spec col (snd (shape image))); [lia|reflexivity].
Qed.

(** Sequences that agree between [lo] and [hi] have the same slice. *)
Lemma slice_agree (c c' : list R) (lo hi : Z) :
  (0 ≤ lo ≤ hi)%Z →
  (∀ i : nat, (lo ≤ Z.of_nat i < hi)%Z → c !! i = c' !! i) →
  slice c lo hi = slice c' lo hi.
Proof.
  intros H Hagree. apply list_eq. intros k.
  rewrite !lookup_slice_clipped by exact H.
  destruct (decide (Z.to_nat lo + k < Z.to_nat hi)); [|reflexivity].
  apply Hagree. lia.
Qed.

Lemma raw_column_agree (image image' : ndarray) (col : nat) (lo hi : Z) :
  shape image = shape image' →
  (∀ i, (lo ≤ Z.of_nat i < hi)%Z → get image i col = get image' i col) →
  ∀ i : nat, (lo ≤ Z.of_nat i < hi)%Z →
    Spec.raw_column image col !! i = Spec.raw_column image' col !! i.
Proof.
  intros Hshape Hagree i Hi.
  destruct (decide (i < fst (shape image))) as [Hr|Hr].
  - rewrite !lookup_raw_column by (rewrite <- ?Hshape; exact Hr).
    f_equal. apply Hagree. exact Hi.
  - rewrite !lookup_ge_None_2; [reflexivity | |];
      rewrite length_raw_column, <- ?Hshape; lia.
Qed.

(** The samples of a column are taken from the band rows of the image and
    from nowhere else. *)
Lemma column_samples_agree (image image' : ndarray) (N col : nat) (y1 y2 y3 y4 : Z) :
  wf image → wf image' → shape image = shape image' →
  (0 ≤ y1 ≤ y2)%Z → (0 ≤ y3 ≤ y4)%Z →
  (∀ i col, ((y1 ≤ Z.of_nat i < y2)%Z ∨ (y3 ≤ Z.of_nat i < y4)%Z) →
            col < snd (shape image) → get image i col = get image' i col) →
  column_samples image N col y1 y2 y3 y4 = column_samples image' N col y1 y2 y3 y4.
Proof.
  intros Hwf Hwf' Hshape H12 H34 Hagree. unfold column_samples.
  rewrite !(getcol_spec image), !(getcol_spec image') by assumption.
  rewrite <- Hshape.
  assert (Hraw : ∀ c lo hi, c < snd (shape image) →
            (lo = y1 ∧ hi = y2) ∨ (lo = y3 ∧ hi = y4) →
            ∀ i : nat, (lo ≤ Z.of_nat i < hi)%Z →
              Spec.raw_column image c !! i = Spec.raw_column image' c !! i).
  { intros c lo hi Hc Hb. apply raw_column_agree; [exact Hshape|].
    intros i Hi. apply Hagree; [lia | exact Hc]. }
  destruct ((col <=? 1) || (Z.of_nat N - 2 <=? Z.of_nat col)%Z).
  - destruct (Nat.ltb_spec col (snd (shape image))); [|reflexivity].
    cbn [mbind result_bind mret result_ret]. do 2 f_equal.
    + apply slice_agree; [lia|]. apply Hraw; auto.
    + apply slice_agree; [lia|]. apply Hraw; auto.
  - destruct (Nat.ltb_spec (col - 1) (snd (shape image))); [|reflexivity].
    destruct (Nat.ltb_spec col (snd (shape image))); [|reflexivity].
    destruct (Nat.ltb_spec (col + 1) (snd (shape image))); [|reflexivity].
    cbn [mbind result_bind mret result_ret]. do 2 f_equal.
    + apply slice_agree; [lia|]. intros i Hi. rewrite !lookup_median.
      rewrite !(Hraw _ y1 y2) by auto. reflexivity.
    + apply slice_agree; [lia|]. intros i Hi. rewrite !lookup_median.
      rewrite !(Hraw _ y3 y4) by auto. reflexivity.
Qed.

Section WithSolver.
Variable lstsq : list R → list R → nat → list R.

(** X4: the estimate is a function of the band rows alone: two images of
    one shape that agree on the rows of the two bands give the same
    outcome, whatever the rows between and around the bands hold. *)
Theorem background_reads_bands_only (image image' : ndarray) (y1 y2 y3 y4 : Z) :
  wf image → wf image' → shape image = shape image' →
  (∀ i col, ((y1 ≤ Z.of_nat i < y2)%Z ∨ (y3 ≤ Z.of_nat i < y4)%Z) →
            col < snd (shape image) → get image i col = get image' i col) →
  background lstsq image y1 y2 y3 y4 = background lstsq image' y1 y2 y3 y4.
Proof.
  intros Hwf Hwf' Hshape Hagree. unfold background.
  destruct (inconsistent y1 y2 y3 y4) eqn:Hok; [reflexivity|].
  apply inconsistent_false in Hok.
  unfold zeros_like. rewrite <- Hshape.
  apply foldM_ext. intros s col _.
  rewrite (column_samples_agree image image') by (assumption || lia).
  reflexivity.
Qed.



End WithSolver.


Lemma wf_level (r c : nat) (v : R) : wf (level r c v).
Proof.
  split; simpl; [apply repeat_length|].
  apply List.Forall_forall. intros x Hx.
  apply repeat_spec in Hx as ->. apply repeat_length.
Qed.

Lemma wf_with_row (a : ndarray) (i : nat) (v : R) : wf a → wf (with_row a i v).
Proof.
  intros [Hlen Hall]. split; simpl.
  - rewrite length_insert. exact Hlen.
  - apply Forall_insert; [exact Hall | apply repeat_length].
Qed.

Lemma get_with_row_ne (a : ndarray) (i j col : nat) (v : R) :
  i ≠ j → get (with_row a i v) j col = get a j col.
Proof.
  intros Hne. unfold get, with_row. simpl.
  rewrite !(nth_lookup _ j), list_lookup_insert_ne by exact Hne. reflexivity.
Qed.

Lemma background_reads_bands_only_witness :
  background lstsq_zero (level 136 200 100) 0 63 73 135
  = background lstsq_zero (with_row (level 136 200 100) 68 5000) 0 63 73 135.
Proof.
  apply (background_reads_bands_only lstsq_zero (level 136 200 100)
           (with_row (level 136 200 100) 68 5000) 0 63 73 135).
  - apply wf_level.
  - apply wf_with_row, wf_level.
  - reflexivity.
  - intros i col Hi Hcol. symmetry. apply get_with_row_ne. lia.
Defined.


End BackgroundBands.

(** ** The columns of the background estimate *)

Module BackgroundColumns.
Import PyFacts NpFacts MoreFacts Quasar BackgroundFacts QuadraticFacts
       BackgroundBands Examples.


(** Three numbers have one median. *)
Lemma is_median_unique (a b c m m' : R) :
  Spec.is_median a b c m → Spec.is_median a b c m' → m = m'.
Proof. unfold Spec.is_median. intros (_ & L & U) (_ & L' & U'). lra. Qed.


Lemma column_value_unique (image : ndarray) (col r : nat) (v v' : R) :
  Spec.column_value image col r v → Spec.column_value image col r v' → v = v'.
Proof.
  intros [He Hi] [He' Hi'].
  destruct (decide (col ≤ 1 ∨ snd (shape image) ≤ col + 2)) as [E|E].
  - rewrite (He E), (He' E). reflexivity.
  - exact (is_median_unique _ _ _ _ _ (Hi E) (Hi' E)).
Qed.

(** The data of the rows of a column are determined by the image. *)
Lemma column_values_unique (image : ndarray) (col : nat) (idx : list nat)
      (ys ys' : list R) :
  Forall2 (Spec.column_value image col) idx ys →
  Forall2 (Spec.column_value image col) idx ys' → ys = ys'.
Proof.
  intros H. revert ys'.
  induction H as [|r v idx ys Hv _ IH]; intros ys' H'; inversion H'; subst.
  - reflexivity.
  - f_equal; [eapply column_value_unique; eassumption | apply IH; assumption].
Qed.














End BackgroundColumns.

(** ** More on the centroid refiner *)

Module CentroidExtras.
Import PyFacts MoreFacts Quasar Examples CentroidClaims.

Lemma index_out_of_range {A} (a : list A) (i : Z) :
  (Z.of_nat (length a) ≤ i)%Z → index a i = Raise IndexError.
Proof.
  intros H. unfold index.
  destruct (Z.ltb_spec i 0); [lia|]. destruct (Z.ltb_spec i 0); [lia|].
  rewrite lookup_ge_None_2 by lia. reflexivity.
Qed.

(** The number of samples in the window of [centroid_peak]. *)
Lemma length_zoom (width : Z) (a : list R) (centre : Z) :
  length (zoom width a centre)
  = clamp (length a) (centre + width) - clamp (length a) (centre - width).
Proof.
  unfold zoom, slice. rewrite length_take, length_drop.
  unfold clamp.
  destruct (Z.ltb_spec (centre + width) 0), (Z.ltb_spec (centre - width) 0); lia.
Qed.

(** X6: a position closer than [width] to the start of a spectrum of at
    least [2 * width] samples makes the start of the slice negative, which
    Python counts from the end: the window is empty and [centroid_peak]
    ends in an [IndexError], whatever the fitter. *)
Theorem centroid_peak_near_start (curve_fit : fitter)
    (width : Z) (x y : list R) (centre : Z) :
  (0 ≤ centre < width)%Z →
  (2 * width ≤ Z.of_nat (length y))%Z →
  zoom width y centre = [] ∧
  centroid_peak curve_fit width x y centre = Raise IndexError.
Proof.
  intros Hc Hlen.
  assert (Hempty : zoom width y centre = []).
  { apply length_zero_iff_nil. rewrite length_zoom. unfold clamp.
    destruct (Z.ltb_spec (centre + width) 0), (Z.ltb_spec (centre - width) 0); lia. }
  split; [exact Hempty|].
  unfold centroid_peak. rewrite Hempty.
  rewrite (index_out_of_range (A := R) [] width) by (simpl; lia). reflexivity.
Qed.

Lemma centroid_peak_near_start_witness :
  zoom 5 (ramp 20) 3 = [] ∧
  centroid_peak curve_fit_guess 5 (ramp 20) (ramp 20) 3 = Raise IndexError.
Proof.
  apply (centroid_peak_near_start curve_fit_guess 5 (ramp 20) (ramp 20) 3).
  - lia.
  - simpl. lia.
Defined.

(** X7: a position at or beyond the end of the spectrum leaves at most
    [width] samples in the window, and [centroid_peak] ends in an
    [IndexError], whatever the fitter. *)
Theorem centroid_peak_beyond_end (curve_fit : fitter)
    (width : Z) (x y : list R) (centre : Z) :
  (0 ≤ width)%Z →
  (Z.of_nat (length y) ≤ centre)%Z →
  centroid_peak curve_fit width x y centre = Raise IndexError.
Proof.
  intros Hw Hc. unfold centroid_peak.
  rewrite (index_out_of_range (zoom width y centre) width); [reflexivity|].
  rewrite length_zoom. unfold clamp.
  destruct (Z.ltb_spec (centre + width) 0), (Z.ltb_spec (centre - width) 0); lia.
Qed.

Lemma centroid_peak_beyond_end_witness :
  centroid_peak curve_fit_guess 5 (ramp 20) (ramp 20) 20 = Raise IndexError.
Proof.
  apply (centroid_peak_beyond_end curve_fit_guess 5 (ramp 20) (ramp 20) 20).
  - lia.
  - simpl. lia.
Defined.

Lemma zoom_near_end (width : Z) (a : list R) (centre : Z) :
  (0 ≤ width ≤ centre)%Z → (Z.of_nat (length a) ≤ centre + width)%Z →
  zoom width a centre = drop (Z.to_nat (centre - width)) a.
Proof.
  intros Hw Hend. unfold zoom, slice, clamp.
  destruct (Z.ltb_spec (centre + width) 0), (Z.ltb_spec (centre - width) 0);
    try lia.
  rewrite Nat.min_r by lia.
  destruct (decide (Z.to_nat (centre - width) ≤ length a)) as [Hl|Hl].
  - rewrite Nat.min_l by lia. apply take_ge. rewrite length_drop. lia.
  - rewrite Nat.min_r by lia. rewrite !drop_ge by lia. apply take_nil.
Qed.

(** X11: a position inside the spectrum but fewer than [width] samples
    before its end raises nothing: the window is cut short at the end of
    the spectrum, and the Gaussian is fitted to the samples that are
    left, from the same initial guess. *)
Theorem centroid_peak_near_end (curve_fit : fitter)
    (width : Z) (x y : list R) (centre : Z) :
  (0 ≤ width ≤ centre)%Z →
  (centre < Z.of_nat (length y))%Z →
  (Z.of_nat (length y) ≤ centre + width)%Z →
  length x = length y →
  let x_zoom := drop (Z.to_nat (centre - width)) x in
  let y_zoom := drop (Z.to_nat (centre - width)) y in
  length y_zoom = Z.to_nat (Z.of_nat (length y) - centre + width) ∧
  centroid_peak curve_fit width x y centre
  = match curve_fit gauss x_zoom y_zoom
            [0%R; nth (Z.to_nat centre) y 0%R; nth (Z.to_nat centre) x 0%R; 1%R] with
    | Ok (parameters, _) => index parameters 2
    | Raise e => Raise e
    end.
Proof.
  intros Hw Hc Hend Hlen x_zoom y_zoom.
  split; [unfold y_zoom; rewrite length_drop; lia|].
  unfold centroid_peak.
  rewrite (zoom_near_end width x), (zoom_near_end width y) by lia.
  fold x_zoom y_zoom.
  assert (Ha : index y_zoom width = Ok (nth (Z.to_nat centre) y 0%R)).
  { replace width with (Z.of_nat (Z.to_nat width)) at 1 by lia.
    apply index_lookup. unfold y_zoom. rewrite lookup_drop.
    replace (Z.to_nat (centre - width) + Z.to_nat width) with (Z.to_nat centre) by lia.
    destruct (lookup_lt_is_Some_2 y (Z.to_nat centre)) as [v Hv]; [lia|].
    rewrite Hv. f_equal. symmetry. apply nth_lookup_Some. exact Hv. }
  assert (Hb : index x_zoom width = Ok (nth (Z.to_nat centre) x 0%R)).
  { replace width with (Z.of_nat (Z.to_nat width)) at 1 by lia.
    apply index_lookup. unfold x_zoom. rewrite lookup_drop.
    replace (Z.to_nat (centre - width) + Z.to_nat width) with (Z.to_nat centre) by lia.
    destruct (lookup_lt_is_Some_2 x (Z.to_nat centre)) as [v Hv]; [lia|].
    rewrite Hv. f_equal. symmetry. apply nth_lookup_Some. exact Hv. }
  clearbody x_zoom y_zoom.
  rewrite Ha. cbn [mbind result_bind]. rewrite Hb. cbn [mbind result_bind].
  unfold fit_gaussian_centroid.
  destruct (curve_fit gauss x_zoom y_zoom _) as [[parameters covariance]|e];
    reflexivity.
Qed.

Lemma centroid_peak_near_end_witness :
  length (drop (Z.to_nat (17 - 5)) (ramp 20))
  = Z.to_nat (Z.of_nat (length (ramp 20)) - 17 + 5) ∧
  centroid_peak curve_fit_guess 5 (ramp 20) (ramp 20) 17
  = match curve_fit_guess gauss (drop (Z.to_nat (17 - 5)) (ramp 20))
            (drop (Z.to_nat (17 - 5)) (ramp 20))
            [0%R; nth (Z.to_nat 17) (ramp 20) 0%R; nth (Z.to_nat 17) (ramp 20) 0%R; 1%R] with
    | Ok (parameters, _) => index parameters 2
    | Raise e => Raise e
    end.
Proof.
  apply (centroid_peak_near_end curve_fit_guess 5 (ramp 20) (ramp 20) 17).
  - lia.
  - simpl. lia.
  - simpl. lia.
  - reflexivity.
Defined.

(** The loop of [get_centroid_locations], cut in two. *)
Lemma foldM_app {A St} (body : St → A → result St) (xs ys : list A) (s : St) :
  foldM body (xs ++ ys) s = foldM body xs s ≫= foldM body ys.
Proof.
  revert s. induction xs as [|x xs IH]; intros s; simpl; [reflexivity|].
  destruct (body s x) as [s'|e]; simpl; [apply IH | reflexivity].
Qed.

Lemma collect_acc {A B} (f : A → result B) (pix : list A) (acc : list B) :
  foldM (fun pix_refined p => c ← f p; mret (pix_refined ++ [c])) pix acc
  = (l ← foldM (fun pix_refined p => c ← f p; mret (pix_refined ++ [c])) pix [];
     mret (acc ++ l)).
Proof.
  revert acc. induction pix as [|p pix IH]; intros acc; simpl.
  - rewrite app_nil_r. reflexivity.
  - destruct (f p) as [c|e]; simpl; [|reflexivity].
    rewrite (IH (acc ++ [c])), (IH [c]).
    destruct (foldM _ pix []) as [l|e]; simpl; [|reflexivity].
    rewrite <- app_assoc. reflexivity.
Qed.

(** X8: refining a list of positions in two parts and joining the results
    is the same as refining the whole list; an exception in the first part
    is the outcome, and one in the second part is the outcome when the
    first part succeeds. *)
Theorem get_centroid_locations_app (curve_fit : fitter)
    (pix1 pix2 spectrum : list R) :
  get_centroid_locations curve_fit (pix1 ++ pix2) spectrum
  = (l1 ← get_centroid_locations curve_fit pix1 spectrum;
     l2 ← get_centroid_locations curve_fit pix2 spectrum;
     mret (l1 ++ l2)).
Proof.
  unfold get_centroid_locations. rewrite foldM_app.
  destruct (foldM _ pix1 []) as [l1|e]; simpl; [|reflexivity].
  apply (collect_acc
           (fun p => centroid_peak curve_fit 5
                       (arange 0 (Z.of_nat (length spectrum))) spectrum (int p))).
Qed.

(** X9: the refiner has no fallback: when the fit of one position raises
    and the fits of the positions before it succeed, the call ends in that
    exception, and the centroids found so far are lost. *)
Theorem get_centroid_locations_fails_fast (curve_fit : fitter)
    (before after spectrum : list R) (p : R) (e : exn) :
  (∀ q, q ∈ before →
        ∃ c, centroid_peak curve_fit 5 (arange 0 (Z.of_nat (length spectrum)))
                           spectrum (int q) = Ok c) →
  centroid_peak curve_fit 5 (arange 0 (Z.of_nat (length spectrum))) spectrum (int p)
  = Raise e →
  get_centroid_locations curve_fit (before ++ p :: after) spectrum = Raise e.
Proof.
  intros Hbefore Hp.
  rewrite get_centroid_locations_app.
  destruct (collect_ok
              (fun q => centroid_peak curve_fit 5
                          (arange 0 (Z.of_nat (length spectrum))) spectrum (int q))
              before Hbefore []) as [l1 Hl1].
  assert (H1 : get_centroid_locations curve_fit before spectrum = Ok l1)
    by exact Hl1.
  assert (H2 : get_centroid_locations curve_fit (p :: after) spectrum = Raise e).
  { unfold get_centroid_locations. simpl. rewrite Hp. reflexivity. }
  rewrite H1, H2. reflexivity.
Qed.

Lemma get_centroid_locations_fails_fast_witness :
  get_centroid_locations curve_fit_guess ([7; 8] ++ 3 :: [9])%R (ramp 20)
  = Raise IndexError.
Proof.
  apply (get_centroid_locations_fails_fast curve_fit_guess [7; 8]%R [9]%R
           (ramp 20) 3%R IndexError).
  - intros q Hq.
    assert (Hint : int q = 7%Z ∨ int q = 8%Z).
    { rewrite !elem_of_cons in Hq. destruct Hq as [->|[->|Hq]]; [| |inversion Hq].
      - left. apply int_7.
      - right. unfold int. destruct (Rle_dec 0 8) as [_|H]; [|lra].
        symmetry. apply Int_part_spec. lra. }
    destruct Hint as [-> | ->]; eexists; reflexivity.
  - replace (int 3) with 3%Z.
    + apply (centroid_peak_near_start curve_fit_guess 5); simpl; lia.
    + unfold int. destruct (Rle_dec 0 3) as [_|H]; [|lra].
      apply Int_part_spec. lra.
Defined.

Local Open Scope R_scope.

(** X10: for a width that is not zero and an amplitude that is not
    negative, the model [gauss] stays between the baseline [H] and
    [H + A], reaches [H + A] at the centre [x0], and is symmetric about
    the centre. *)
Theorem gauss_peak (H A x0 sigma x d : R) :
  sigma ≠ 0 → 0 <= A →
  gauss x0 H A x0 sigma = H + A ∧
  H <= gauss x H A x0 sigma <= H + A ∧
  gauss (x0 + d) H A x0 sigma = gauss (x0 - d) H A x0 sigma.
Proof.
  intros Hs HA. unfold gauss.
  assert (Hden : 0 < 2 * sigma ^ 2).
  { pose proof (pow2_ge_0 sigma). pose proof (pow_nonzero sigma 2 Hs). lra. }
  split; [|split].
  - replace (- (x0 - x0) ^ 2 / (2 * sigma ^ 2)) with 0 by (field; lra).
    rewrite exp_0. ring.
  - assert (Harg : - (x - x0) ^ 2 / (2 * sigma ^ 2) <= 0).
    { unfold Rdiv. pose proof (pow2_ge_0 (x - x0)).
      pose proof (Rinv_0_lt_compat _ Hden).
      replace (- (x - x0) ^ 2 * / (2 * sigma ^ 2))
        with (- ((x - x0) ^ 2 * / (2 * sigma ^ 2))) by ring.
      assert (0 <= (x - x0) ^ 2 * / (2 * sigma ^ 2))
        by (apply Rmult_le_pos; lra).
      lra. }
    pose proof (exp_pos (- (x - x0) ^ 2 / (2 * sigma ^ 2))) as Hpos.
    assert (Hle : exp (- (x - x0) ^ 2 / (2 * sigma ^ 2)) <= 1).
    { rewrite <- exp_0. destruct Harg as [Hlt|Heq].
      - left. apply exp_increasing. exact Hlt.
      - rewrite Heq. right. reflexivity. }
    split.
    + assert (0 <= A * exp (- (x - x0) ^ 2 / (2 * sigma ^ 2)))
        by (apply Rmult_le_pos; lra).
      lra.
    + assert (A * exp (- (x - x0) ^ 2 / (2 * sigma ^ 2)) <= A * 1)
        by (apply Rmult_le_compat_l; lra).
      lra.
  - do 3 f_equal. field. lra.
Qed.

Lemma gauss_peak_witness :
  gauss 5 0 10 5 1 = 0 + 10 ∧
  0 <= gauss 7 0 10 5 1 <= 0 + 10 ∧
  gauss (5 + 2) 0 10 5 1 = gauss (5 - 2) 0 10 5 1.
Proof. apply (gauss_peak 0 10 5 1 7 2); lra. Defined.

End CentroidExtras.

(** ** More on the wavelength calibrator *)

Module CalibrationExtras.
Import Quasar CubicFacts QuadraticFacts Examples CalibrationClaims.

Local Open Scope R_scope.

(** X12: [calibration] raises exactly when the positions are empty or
    differ in number from the wavelengths; the exception is the
    [TypeError] of [np.polyfit], and nothing has been printed or drawn.
    In every other case it returns one wavelength per entry of the pixel
    axis, after one printed line and eight drawing calls. *)
Theorem calibration_outcome {O} (lstsq : list R → list R → nat → list R)
    (pix wav pix_axis : list R) (w : world O) :
  if (length pix =? 0)%nat || negb (length pix =? length wav)%nat
  then calibration lstsq pix wav pix_axis w = (Raise TypeError, w)
  else ∃ wav_axis events,
         calibration lstsq pix wav pix_axis w
         = (Ok wav_axis, mk_world (globals w) (output w ++ events)) ∧
         length wav_axis = length pix_axis ∧
         (∃ line drawing, events = Print line :: drawing ∧ length drawing = 8%nat).
Proof.
  destruct (Nat.eqb_spec (length pix) 0) as [Hempty|Hne]; simpl.
  - unfold calibration, polyfit. rewrite Hempty. simpl.
    destruct w. reflexivity.
  - destruct (Nat.eqb_spec (length pix) (length wav)) as [Hlen|Hlen]; simpl.
    + eexists _, _. split.
      * apply calibration_run; [exact Hlen|]. intros ->. apply Hne. reflexivity.
      * split; [apply length_map|]. eexists _, _. split; reflexivity.
    + unfold calibration, polyfit.
      destruct (Nat.eqb_spec (length pix) 0); [lia|].
      destruct (Nat.eqb_spec (length pix) (length wav)); [lia|].
      simpl. destruct w. reflexivity.
Qed.

(** Raising the constant term of a cubic by [t] raises its residuals by
    [t]. *)
Lemma sse_shift (a b c d t : R) (x y : list R) :
  length x = length y →
  sse [a; b; c; d + t] x y
  = sse [a; b; c; d] x y
    + 2 * t * fold_right Rplus 0 (residuals (map (poly1d [a; b; c; d]) x) y)
    + t * t * INR (length x).
Proof.
  revert y. induction x as [|xi x IH]; intros [|yi y]; try discriminate.
  - intros _. simpl. ring.
  - intros [= Hlen]. cbn [sse map residuals fold_right length].
    rewrite (IH y Hlen), S_INR, !poly1d_cubic. ring.
Qed.

(** The residuals of a least-squares cubic add up to zero. *)
Lemma least_squares_residuals_balance (x y c : list R) :
  length x = length y → x ≠ [] → least_squares 3%nat x y c →
  fold_right Rplus 0 (residuals (map (poly1d c) x) y) = 0.
Proof.
  intros Hlen Hne [Hc Hmin].
  destruct (length4 c Hc) as (a & b & c0 & d & ->).
  set (S := fold_right Rplus 0 (residuals (map (poly1d [a; b; c0; d]) x) y)).
  assert (Hn : 0 < INR (length x)).
  { apply lt_0_INR. destruct x; [congruence | simpl; lia]. }
  pose proof (Hmin [a; b; c0; d + - S / INR (length x)] eq_refl) as H.
  rewrite (sse_shift a b c0 d _ x y Hlen) in H. fold S in H.
  assert (Heq : 2 * (- S / INR (length x)) * S
                + - S / INR (length x) * (- S / INR (length x)) * INR (length x)
                = - (S * S) / INR (length x)) by (field; lra).
  assert (Hsq : S * S <= 0).
  { assert (0 <= - (S * S) / INR (length x)) by lra.
    assert (Hm : 0 <= - (S * S) / INR (length x) * INR (length x))
      by (apply Rmult_le_pos; lra).
    replace (- (S * S) / INR (length x) * INR (length x)) with (- (S * S)) in Hm
      by (field; lra).
    lra. }
  apply square_nonpos. exact Hsq.
Qed.

(** X13: when the solver answers a least-squares cubic, the residuals that
    [calibration] plots against the zero line add up to zero. *)
Theorem calibration_residuals_balance {O} (lstsq : list R → list R → nat → list R)
    (pix wav pix_axis : list R) (w : world O) :
  length pix = length wav → pix ≠ [] →
  least_squares 3%nat pix wav (lstsq pix wav 3%nat) →
  ∃ wav_axis w' residual label,
    calibration lstsq pix wav pix_axis w = (Ok wav_axis, w') ∧
    PltScatter wav residual label ∈ output w' ∧
    fold_right Rplus 0 residual = 0.
Proof.
  intros Hlen Hne Hls.
  eexists _, _, _, _. split; [apply calibration_run; assumption|].
  split.
  - cbn [output]. apply elem_of_app. right. right. right. left.
  - apply least_squares_residuals_balance; assumption.
Qed.

Lemma calibration_residuals_balance_witness :
  ∃ wav_axis w' residual label,
    calibration lstsq_zero pix5 wav5 pix5 (fresh (O := ())) = (Ok wav_axis, w') ∧
    PltScatter wav5 residual label ∈ output w' ∧
    fold_right Rplus 0 residual = 0.
Proof.
  apply (calibration_residuals_balance lstsq_zero pix5 wav5 pix5 fresh).
  - reflexivity.
  - discriminate.
  - exact least_squares_zero5.
Defined.

Lemma residuals_exact (f : R → R) (x : list R) :
  residuals (map f x) (map f x) = map (fun _ => 0) x.
Proof.
  induction x as [|xi x IH]; simpl; [reflexivity|].
  rewrite IH. f_equal. ring.
Qed.

Lemma sum_sq_zeros {A} (x : list A) : sum_sq (map (fun _ => 0) x) = 0.
Proof. induction x as [|xi x IH]; simpl; [reflexivity|]. rewrite IH. ring. Qed.

(** X14: when the wavelengths lie on a cubic of the positions, with four
    distinct positions or more, and the solver answers a least-squares
    cubic, [calibration] recovers that cubic: the wavelength axis holds its
    values on the pixel axis, and the RMS that is printed is zero. *)
Theorem calibration_recovers_cubic {O} (lstsq : list R → list R → nat → list R)
    (pix pix_axis : list R) (a b c d : R) (w : world O) :
  Spec.distinct_positions 4 pix →
  let wav := map (poly1d [a; b; c; d]) pix in
  least_squares 3%nat pix wav (lstsq pix wav 3%nat) →
  ∃ w' rest,
    calibration lstsq pix wav pix_axis w
    = (Ok (map (poly1d [a; b; c; d]) pix_axis), w') ∧
    output w' = output w ++ Print [VStr "RMS: "; VNum 0; VStr " Angstroms"] :: rest.
Proof.
  intros Hdist wav Hls.
  assert (Hne : pix ≠ []).
  { destruct Hdist as (l & Hl & _ & Hsub). intros ->.
    destruct l as [|x l]; [discriminate|].
    specialize (Hsub x ltac:(left)). inversion Hsub. }
  assert (Hlen : length pix = length wav) by (unfold wav; rewrite length_map; reflexivity).
  assert (Hfit : lstsq pix wav 3%nat = [a; b; c; d]).
  { apply (least_squares_cubic_unique pix wav); try assumption.
    apply exact_fit_least_squares. reflexivity. }
  assert (Hrms : rms (poly1d [a; b; c; d]) pix wav = 0).
  { unfold rms, wav. rewrite residuals_exact, sum_sq_zeros.
    unfold Rdiv. rewrite Rmult_0_l. apply sqrt_0. }
  eexists _, _. rewrite calibration_run by assumption.
  rewrite Hfit, Hrms. split; reflexivity.
Qed.

Lemma calibration_recovers_cubic_witness :
  ∃ w' rest,
    calibration lstsq_cube pix4 (map (poly1d [1; 0; 0; 0]) pix4) pix5 (fresh (O := ()))
    = (Ok (map (poly1d [1; 0; 0; 0]) pix5), w') ∧
    output w' = output (fresh (O := ()))
                ++ Print [VStr "RMS: "; VNum 0; VStr " Angstroms"] :: rest.
Proof.
  apply (calibration_recovers_cubic lstsq_cube pix4 pix5 1 0 0 0 fresh).
  - exact distinct_pix4.
  - apply exact_fit_least_squares. reflexivity.
Defined.

(** Among residuals, one at least is as large as their root mean square. *)
Lemma sum_sq_largest (r : list R) :
  r ≠ [] → ∃ i a, r !! i = Some a ∧ sum_sq r <= INR (length r) * (a * a).
Proof.
  induction r as [|b r IH]; [congruence|]. intros _.
  destruct r as [|b' r].
  - exists 0%nat, b. split; [reflexivity|]. simpl. lra.
  - destruct IH as (i & a & Hi & Ha); [discriminate|].
    set (r' := b' :: r) in *.
    change (sum_sq (b :: r')) with (b ^ 2 + sum_sq r').
    change (length (b :: r')) with (Datatypes.S (length r')). rewrite S_INR.
    assert (0 <= INR (length r')) by apply pos_INR.
    destruct (Rle_dec (b * b) (a * a)) as [Hle|Hgt].
    + exists (Datatypes.S i), a. split; [exact Hi|]. simpl pow. lra.
    + exists 0%nat, b. split; [reflexivity|].
      assert (INR (length r') * (a * a) <= INR (length r') * (b * b))
        by (apply Rmult_le_compat_l; lra).
      simpl pow. lra.
Qed.

Lemma lookup_residuals_inv (f : R → R) (pix wav : list R) (i : nat) (a : R) :
  residuals (map f pix) wav !! i = Some a →
  ∃ x y, pix !! i = Some x ∧ wav !! i = Some y ∧ a = f x - y.
Proof.
  revert wav i. induction pix as [|p pix IH]; intros [|v wav] [|i]; simpl;
    try discriminate.
  - intros [= <-]. eauto.
  - apply IH.
Qed.

Lemma residuals_nonempty (f : R → R) (pix wav : list R) :
  length pix = length wav → pix ≠ [] → residuals (map f pix) wav ≠ [].
Proof. destruct pix, wav; simpl; congruence. Qed.

Lemma length_residuals (f : R → R) (pix wav : list R) :
  length pix = length wav → length (residuals (map f pix) wav) = length pix.
Proof.
  revert wav. induction pix as [|p pix IH]; intros [|v wav]; simpl; try congruence.
  intros [= H]. rewrite IH by exact H. reflexivity.
Qed.

(** X15: the RMS that [calibration] prints never exceeds the largest
    residual: at one line at least, the fitted mapping misses the input
    wavelength by the reported RMS or more. *)
Theorem calibration_rms_below_largest {O} (lstsq : list R → list R → nat → list R)
    (pix wav pix_axis : list R) (w : world O) :
  length pix = length wav → pix ≠ [] →
  ∃ wav_axis w' RMS rest,
    calibration lstsq pix wav pix_axis w = (Ok wav_axis, w') ∧
    output w' = output w ++ Print [VStr "RMS: "; VNum RMS; VStr " Angstroms"] :: rest ∧
    ∃ i x y, pix !! i = Some x ∧ wav !! i = Some y ∧
             RMS <= Rabs (poly1d (lstsq pix wav 3%nat) x - y).
Proof.
  intros Hlen Hne.
  eexists _, _, _, _. split; [apply calibration_run; assumption|].
  split; [reflexivity|].
  set (f := poly1d (lstsq pix wav 3%nat)).
  destruct (sum_sq_largest (residuals (map f pix) wav))
    as (i & a & Hi & Ha); [apply residuals_nonempty; assumption|].
  destruct (lookup_residuals_inv f pix wav i a Hi) as (x & y & Hx & Hy & ->).
  exists i, x, y. split; [exact Hx|]. split; [exact Hy|].
  unfold rms. fold f. rewrite length_residuals in Ha by exact Hlen.
  assert (Hn : 0 < INR (length pix)).
  { apply lt_0_INR. destruct pix; [congruence | simpl; lia]. }
  rewrite <- sqrt_Rsqr_abs. apply sqrt_le_1_alt. unfold Rsqr.
  apply (Rmult_le_reg_l (INR (length pix))); [exact Hn|].
  replace (INR (length pix) * (sum_sq (residuals (map f pix) wav) / INR (length pix)))
    with (sum_sq (residuals (map f pix) wav)) by (field; lra).
  exact Ha.
Qed.

Lemma calibration_rms_below_largest_witness :
  ∃ wav_axis w' RMS rest,
    calibration lstsq_zero pix5 wav5 pix5 (fresh (O := ())) = (Ok wav_axis, w') ∧
    output w' = output (fresh (O := ()))
                ++ Print [VStr "RMS: "; VNum RMS; VStr " Angstroms"] :: rest ∧
    ∃ i x y, pix5 !! i = Some x ∧ wav5 !! i = Some y ∧
             RMS <= Rabs (poly1d (lstsq_zero pix5 wav5 3%nat) x - y).
Proof.
  apply (calibration_rms_below_largest lstsq_zero pix5 wav5 pix5 fresh).
  - reflexivity.
  - discriminate.
Defined.

End CalibrationExtras.

(** ** The labelled plot of the arc spectrum *)

Module PlotExtras.
Import Quasar Examples.

Local Open Scope R_scope.

Lemma fold_left_Rmax_ge (a : list R) (x : R) :
  x <= fold_left Rmax a x ∧ ∀ s, s ∈ a → s <= fold_left Rmax a x.
Proof.
  revert x. induction a as [|y a IH]; intros x; simpl.
  - split; [lra|]. intros s Hs. inversion Hs.
  - destruct (IH (Rmax x y)) as [H1 H2].
    pose proof (Rmax_l x y). pose proof (Rmax_r x y).
    split; [lra|]. intros s Hs.
    apply elem_of_cons in Hs as [->|Hs]; [lra | apply H2; exact Hs].
Qed.

Lemma fold_left_Rmax_elem (a : list R) (x : R) :
  fold_left Rmax a x = x ∨ fold_left Rmax a x ∈ a.
Proof.
  revert x. induction a as [|y a IH]; intros x; simpl; [left; reflexivity|].
  destruct (IH (Rmax x y)) as [H|H].
  - rewrite H. unfold Rmax. destruct (Rle_dec x y); [right; left | left; reflexivity].
  - right. right. exact H.
Qed.

(** [max] of a sequence that is not empty is its largest element. *)
Lemma max_of_spec (a : list R) :
  a ≠ [] → ∃ m, max_of a = Ok m ∧ m ∈ a ∧ ∀ s, s ∈ a → s <= m.
Proof.
  destruct a as [|x a]; [congruence|]. intros _.
  exists (fold_left Rmax a x). split; [reflexivity|].
  destruct (fold_left_Rmax_ge a x) as [H1 H2]. split.
  - destruct (fold_left_Rmax_elem a x) as [-> | H]; [left | right; exact H].
  - intros s Hs. apply elem_of_cons in Hs as [->|Hs]; [exact H1 | apply H2; exact Hs].
Qed.

(** X16: on an empty spectrum [plot_lines] ends in the [ValueError] of
    [max], after the axes, the empty curve, the labels and the title have
    been drawn and before any line is identified; the figure is never
    shown. *)
Theorem plot_lines_empty {O} (pix_refined : list R) (wav_labels : list string)
    (x_label y_label title : string) (fontsize : R) (w : world O) :
  plot_lines [] pix_refined wav_labels x_label y_label title fontsize w
  = (Raise ValueError,
     mk_world (globals w)
       (output w ++ [PltSubplots 9 6; PltPlot []; PltXlabel x_label;
                     PltYlabel y_label; PltTitle title])).
Proof.
  unfold plot_lines, mbind, io_bind, emit, lift. simpl.
  rewrite <- !app_assoc. reflexivity.
Qed.

(** X17: on a spectrum that is not empty, with one label per line,
    [plot_lines] returns, and it places the arrow tips at 1.01 times, the label boxes at 1.1 times and
    the top of the plot at 1.2 times the largest sample.  The labels lie
    above the whole curve and inside the plot exactly when the largest
    sample is not negative. *)
Theorem plot_lines_labels {O} (arc_spectrum pix_refined : list R)
    (wav_labels : list string) (x_label y_label title : string) (fontsize : R)
    (w : world O) :
  arc_spectrum ≠ [] →
  length pix_refined = length wav_labels →
  ∃ m events,
    plot_lines arc_spectrum pix_refined wav_labels x_label y_label title fontsize w
    = (Ok (), mk_world (globals w) (output w ++ events)) ∧
    m ∈ arc_spectrum ∧ (∀ s, s ∈ arc_spectrum → s <= m) ∧
    PltYlim (-50000) (12 / 10 * m) ∈ events ∧
    PlotLineIds (arange 0 (Z.of_nat (length arc_spectrum))) arc_spectrum
                pix_refined wav_labels (101 / 100 * m) (11 / 10 * m) "lightblue"
      ∈ events ∧
    last events = Some PltShow ∧
    ((∀ s, s ∈ arc_spectrum → s <= 101 / 100 * m) ↔ 0 <= m) ∧
    (0 <= m → 101 / 100 * m <= 11 / 10 * m <= 12 / 10 * m).
Proof.
  intros Hne _. destruct (max_of_spec arc_spectrum Hne) as (m & Hm & Hin & Hmax).
  exists m. eexists. split.
  { unfold plot_lines, mbind, io_bind, emit, lift. rewrite Hm. simpl.
    rewrite <- !app_assoc. reflexivity. }
  split; [exact Hin|]. split; [exact Hmax|].
  split; [set_solver|]. split; [set_solver|]. split; [reflexivity|].
  split; [|intros; lra].
  split.
  - intros H. specialize (H m Hin). lra.
  - intros Hpos s Hs. specialize (Hmax s Hs). lra.
Qed.

Lemma plot_lines_labels_witness :
  ∃ m events,
    plot_lines [1; 5; 2] [1] ["5000"%string] "x"%string "y"%string "t"%string 12
               (fresh (O := ()))
    = (Ok (), mk_world (globals (fresh (O := ()))) (output (fresh (O := ())) ++ events)) ∧
    m ∈ [1; 5; 2] ∧ (∀ s, s ∈ [1; 5; 2] → s <= m) ∧
    PltYlim (-50000) (12 / 10 * m) ∈ events ∧
    PlotLineIds (arange 0 (Z.of_nat (length [1; 5; 2]))) [1; 5; 2]
                [1] ["5000"%string] (101 / 100 * m) (11 / 10 * m) "lightblue"
      ∈ events ∧
    last events = Some PltShow ∧
    ((∀ s, s ∈ [1; 5; 2] → s <= 101 / 100 * m) ↔ 0 <= m) ∧
    (0 <= m → 101 / 100 * m <= 11 / 10 * m <= 12 / 10 * m).
Proof.
  apply (plot_lines_labels [1; 5; 2] [1] ["5000"%string] "x"%string "y"%string
           "t"%string 12 fresh).
  - discriminate.
  - reflexivity.
Defined.

End PlotExtras.

(** ** More on the grid viewer *)

Module GridExtras.
Import PyFacts NpFacts Astrometry Examples NamespaceClaims.

(** The names of the grid viewer are distinct: two of them are equal only
    when they are of one family and carry one number. *)
Lemma polyxena_cut_inj (i j : nat) : polyxena_cut i = polyxena_cut j → i = j.
Proof. unfold polyxena_cut. simpl. intros [= H]. exact (inj pretty _ _ H). Qed.

Lemma plot_cut_inj (i j : nat) : plot_cut i = plot_cut j → i = j.
Proof. unfold plot_cut. simpl. intros [= H]. exact (inj pretty _ _ H). Qed.

Lemma r_inj (i j : nat) : r_ i = r_ j → i = j.
Proof. unfold r_. simpl. intros [= H]. exact (inj pretty _ _ H). Qed.

Lemma c_inj (i j : nat) : c_ i = c_ j → i = j.
Proof. unfold c_. simpl. intros [= H]. exact (inj pretty _ _ H). Qed.

Lemma families_distinct (i j : nat) :
  polyxena_cut i ≠ plot_cut j ∧ polyxena_cut i ≠ r_ j ∧ polyxena_cut i ≠ c_ j ∧
  plot_cut i ≠ r_ j ∧ plot_cut i ≠ c_ j ∧ r_ i ≠ c_ j.
Proof.
  unfold polyxena_cut, plot_cut, r_, c_. simpl. repeat split; intros [=].
Qed.

(** A name of star [i] is not a name of another star. *)
Lemma names_of_other_star (i j : nat) (name : string) :
  i ≠ j →
  name ∈ [polyxena_cut (i + 1); plot_cut (i + 1); r_ (i + 1); c_ (i + 1)] →
  name ∉ [polyxena_cut (j + 1); plot_cut (j + 1); r_ (j + 1); c_ (j + 1)].
Proof.
  intros Hne Hi Hj.
  destruct (families_distinct (i + 1) (j + 1)) as (A1 & A2 & A3 & A4 & A5 & A6).
  destruct (families_distinct (j + 1) (i + 1)) as (B1 & B2 & B3 & B4 & B5 & B6).
  rewrite !elem_of_cons, elem_of_nil in Hi, Hj.
  destruct Hi as [->|[->|[->|[->|[]]]]];
    destruct Hj as [Hj|[Hj|[Hj|[Hj|[]]]]];
    try congruence;
    [apply polyxena_cut_inj in Hj | apply plot_cut_inj in Hj
     | apply r_inj in Hj | apply c_inj in Hj]; lia.
Qed.

(** What the loop over the stars leaves bound under the names of a star
    whose number occurs once. *)
Lemma cut_stars_binding (polyxena : ndarray) (stars : list (nat * R * R))
      (i : nat) (x y : R) :
  (i, x, y) ∈ stars →
  (∀ x' y', (i, x', y') ∈ stars → x' = x ∧ y' = y) →
  ∀ (listPlots : list obj) (w : world obj),
  let cut := slice2 polyxena (int (y - 30)) (int (y + 30))
                             (int (x - 30)) (int (x + 30)) in
  ∃ plots w', cut_stars polyxena stars listPlots w = (Ok plots, w') ∧
    globals w' !! polyxena_cut (i + 1) = Some (Cutout cut) ∧
    globals w' !! plot_cut (i + 1) = Some (Figure (0, 60)%Z (0, 60)%Z) ∧
    globals w' !! r_ (i + 1)
    = Some (ImageRenderer cut (fst (shape cut)) (snd (shape cut)) 0 0) ∧
    globals w' !! c_ (i + 1) = Some (CrossRenderer 30 30 (13 / 10) "red" 10).
Proof.
  induction stars as [|[[j x0] y0] stars IH]; intros Hin Huniq listPlots w cut.
  { inversion Hin. }
  cbn [cut_stars]. unfold mbind at 1, io_bind at 1. rewrite cut_star_run.
  destruct (decide (Exists (fun s => fst (fst s) = i) stars)) as [Hlater|Hlast].
  - apply Exists_exists in Hlater as ([[i' x'] y'] & Hs & Hi'). simpl in Hi'. subst i'.
    destruct (Huniq x' y') as [-> ->]; [right; exact Hs|].
    apply IH; [exact Hs|].
    intros x'' y'' H. apply Huniq. right. exact H.
  - assert (Hhead : (j, x0, y0) = (i, x, y)).
    { apply elem_of_cons in Hin as [Hin|Hin]; [symmetry; exact Hin|].
      exfalso. apply Hlast. apply Exists_exists. exists (i, x, y). auto. }
    injection Hhead as -> -> ->.
    match goal with |- context [cut_stars _ _ ?lp ?w1] =>
      destruct (cut_stars_run polyxena stars lp w1)
        as (w' & Hrun & _ & Hframe & _)
    end.
    eexists _, w'. split; [exact Hrun|].
    assert (Hkeep : ∀ name,
              name ∈ [polyxena_cut (i + 1); plot_cut (i + 1); r_ (i + 1); c_ (i + 1)] →
              ∀ k x' y', (k, x', y') ∈ stars →
                name ∉ [polyxena_cut (k + 1); plot_cut (k + 1); r_ (k + 1); c_ (k + 1)]).
    { intros name Hname k x' y' Hk. apply (names_of_other_star i k); [|exact Hname].
      intros ->. apply Hlast. apply Exists_exists. exists (k, x', y'). auto. }
    destruct (families_distinct (i + 1) (i + 1)) as (A1 & A2 & A3 & A4 & A5 & A6).
    rewrite !Hframe by (apply Hkeep; rewrite !elem_of_cons; auto 6).
    cbn [globals].
    repeat split.
    + rewrite !lookup_insert_ne by congruence. apply lookup_insert_eq.
    + rewrite !lookup_insert_ne by congruence. apply lookup_insert_eq.
    + rewrite !lookup_insert_ne by congruence. apply lookup_insert_eq.
    + apply lookup_insert_eq.
Qed.

Lemma elem_of_zip_enumerate_lookup (xcoors ycoors : list R) :
  ∀ k i x y, (i, x, y) ∈ zip_enumerate k xcoors ycoors ↔
             k ≤ i ∧ xcoors !! (i - k) = Some x ∧ ycoors !! (i - k) = Some y.
Proof.
  revert ycoors. induction xcoors as [|x0 xs IH]; intros [|y0 ys] k i x y; simpl;
    try (split; [intros H; inversion H | intros (_ & H1 & H2); discriminate]).
  rewrite elem_of_cons, IH. split.
  - intros [[= -> -> ->]|(Hk & Hx & Hy)].
    + rewrite Nat.sub_diag. auto.
    + replace (i - k) with (S (i - S k)) by lia. split; [lia|]. auto.
  - intros (Hk & Hx & Hy). destruct (decide (i = k)) as [->|Hne].
    + rewrite Nat.sub_diag in Hx, Hy. simpl in Hx, Hy. left. congruence.
    + right. replace (i - k) with (S (i - S k)) in Hx, Hy by lia.
      split; [lia|]. auto.
Qed.

(** X18: after a call of the grid viewer, the four names of star [i+1]
    hold what was made for that star: the cut-out of the image around its
    coordinates, its figure, the image renderer of the cut-out with the
    cut-out's height and width, and the red cross at (30, 30).  No later
    star overwrites them. *)
Theorem polyxenaDisplayGrid_bindings (polyxena : ndarray) (xcoors ycoors : list R)
    (w : world obj) (i : nat) (x y : R) :
  xcoors !! i = Some x → ycoors !! i = Some y →
  let cut := slice2 polyxena (int (y - 30)) (int (y + 30))
                             (int (x - 30)) (int (x + 30)) in
  ∃ plots w', polyxenaDisplayGrid polyxena xcoors ycoors w = (Ok plots, w') ∧
    globals w' !! polyxena_cut (i + 1) = Some (Cutout cut) ∧
    globals w' !! plot_cut (i + 1) = Some (Figure (0, 60)%Z (0, 60)%Z) ∧
    globals w' !! r_ (i + 1)
    = Some (ImageRenderer cut (fst (shape cut)) (snd (shape cut)) 0 0) ∧
    globals w' !! c_ (i + 1) = Some (CrossRenderer 30 30 (13 / 10) "red" 10).
Proof.
  intros Hx Hy cut. unfold polyxenaDisplayGrid.
  apply cut_stars_binding.
  - apply elem_of_zip_enumerate_lookup. rewrite Nat.sub_0_r. auto with lia.
  - intros x' y' H. apply elem_of_zip_enumerate_lookup in H as (_ & Hx' & Hy').
    rewrite Nat.sub_0_r in Hx', Hy'. split; congruence.
Qed.

Lemma polyxenaDisplayGrid_bindings_witness :
  let cut := slice2 (flat 100 100) (int (40 - 30)) (int (40 + 30))
                                   (int (50 - 30)) (int (50 + 30)) in
  ∃ plots w', polyxenaDisplayGrid (flat 100 100) [50; 60]%R [40; 45]%R fresh
              = (Ok plots, w') ∧
    globals w' !! polyxena_cut (0 + 1) = Some (Cutout cut) ∧
    globals w' !! plot_cut (0 + 1) = Some (Figure (0, 60)%Z (0, 60)%Z) ∧
    globals w' !! r_ (0 + 1)
    = Some (ImageRenderer cut (fst (shape cut)) (snd (shape cut)) 0 0) ∧
    globals w' !! c_ (0 + 1) = Some (CrossRenderer 30 30 (13 / 10) "red" 10).
Proof.
  apply (polyxenaDisplayGrid_bindings (flat 100 100) [50; 60]%R [40; 45]%R fresh
           0 50%R 40%R); reflexivity.
Defined.

End GridExtras.

(** ** The cut-outs of the grid viewer *)

Module CutoutExtras.
Import PyFacts NpFacts MoreFacts Astrometry Examples.


(** Within 29 pixels of the low edge, the start of the window is negative
    and its end lies below 60. *)
Lemma int_window_low (x : R) :
  (0 <= x <= 29)%R →
  (-30 ≤ int (x - 30) ≤ -1)%Z ∧ (0 ≤ int (x + 30) ≤ 59)%Z.
Proof.
  intros Hx.
  destruct (int_toward_zero (x - 30)) as [_ Ha]. specialize (Ha ltac:(lra)).
  destruct (int_toward_zero (x + 30)) as [Hb _]. specialize (Hb ltac:(lra)).
  assert ((-31 < int (x - 30))%Z) by (apply lt_IZR; lra).
  assert ((int (x - 30) < 0)%Z) by (apply lt_IZR; lra).
  assert ((-1 < int (x + 30))%Z) by (apply lt_IZR; lra).
  assert ((int (x + 30) < 60)%Z) by (apply lt_IZR; lra).
  lia.
Qed.




(** X20: for a star within 29 pixels of the left edge of an image at least
    89 pixels wide, the start of the slice is negative, Python counts it
    from the right edge, and the cut-out has no column; likewise, within
    29 pixels of the top edge of an image at least 89 pixels high, the
    cut-out has no row. *)
Theorem cutout_wraps (polyxena : ndarray) (x y : R) :
  wf polyxena →
  let cut := slice2 polyxena (int (y - 30)) (int (y + 30))
                             (int (x - 30)) (int (x + 30)) in
  ((0 <= x <= 29)%R → 89 ≤ snd (shape polyxena) →
   snd (shape cut) = 0 ∧ Forall (fun r => r = []) (rows cut)) ∧
  ((0 <= y <= 29)%R → 89 ≤ fst (shape polyxena) →
   fst (shape cut) = 0 ∧ rows cut = []).
Proof.
  intros [Hrows Hall] cut. split.
  - intros Hx Hwide. destruct (int_window_low x Hx) as [Ha Hb].
    assert (Hclamp : ∀ len, 89 ≤ len →
              clamp len (int (x + 30)) - clamp len (int (x - 30)) = 0).
    { intros len Hlen. unfold clamp.
      destruct (Z.ltb_spec (int (x + 30)) 0), (Z.ltb_spec (int (x - 30)) 0); lia. }
    split; [apply Hclamp; exact Hwide|].
    unfold cut, slice2. cbn [rows]. apply Forall_fmap.
    assert (Hsub : Forall (fun r => length r = snd (shape polyxena))
                     (slice (rows polyxena) (int (y - 30)) (int (y + 30)))).
    { unfold slice. apply Forall_take, Forall_drop. exact Hall. }
    eapply Forall_impl; [exact Hsub|]. intros r Hr. cbv beta in *.
    unfold compose, slice. cbv beta zeta.
    rewrite (Hclamp (length r)) by lia. reflexivity.
  - intros Hy Hhigh. destruct (int_window_low y Hy) as [Ha Hb].
    assert (Hempty : slice (rows polyxena) (int (y - 30)) (int (y + 30)) = []).
    { unfold slice. cbv zeta.
      replace (clamp _ (int (y + 30)) - clamp _ (int (y - 30))) with 0;
        [reflexivity|].
      unfold clamp.
      destruct (Z.ltb_spec (int (y + 30)) 0), (Z.ltb_spec (int (y - 30)) 0); lia. }
    unfold cut, slice2. cbn [shape rows]. rewrite Hempty. split; reflexivity.
Qed.

Lemma cutout_wraps_witness :
  let cut := slice2 (flat 100 100) (int (10 - 30)) (int (10 + 30))
                                   (int (10 - 30)) (int (10 + 30)) in
  ((0 <= 10 <= 29)%R → 89 ≤ snd (shape (flat 100 100)) →
   snd (shape cut) = 0 ∧ Forall (fun r => r = []) (rows cut)) ∧
  ((0 <= 10 <= 29)%R → 89 ≤ fst (shape (flat 100 100)) →
   fst (shape cut) = 0 ∧ rows cut = []).
Proof.
  apply (cutout_wraps (flat 100 100) 10 10).
  apply (wf_zeros_like (mk_ndarray (100, 100) [])).
Defined.

End CutoutExtras.

(** ** The click-capture script *)

Module ClickFacts.
Import ClickCapture.

Example first_click :
  display_event "" "" "12.35" "45.6" = ("12.35" +:+ line_sep, "45.6" +:+ line_sep).
Proof. reflexivity. Qed.

Lemma append_nil_l (t : string) : "" +:+ t = t.
Proof. reflexivity. Qed.

Lemma append_cons (c : ascii) (s t : string) :
  String c s +:+ t = String c (s +:+ t).
Proof. reflexivity. Qed.

Lemma append_nil_r (s : string) : s +:+ "" = s.
Proof.
  induction s as [|c s IH]; [reflexivity|].
  rewrite append_cons, IH. reflexivity.
Qed.

Lemma append_assoc (s t u : string) : (s +:+ t) +:+ u = s +:+ (t +:+ u).
Proof.
  induction s as [|c s IH]; [reflexivity|].
  rewrite !append_cons, IH. reflexivity.
Qed.

Lemma prefix_append (s t : string) : String.prefix s (s +:+ t) = true.
Proof.
  induction s as [|c s IH]; [destruct t; reflexivity|].
  rewrite append_cons. cbn [String.prefix].
  destruct (ascii_dec c c) as [_|Hne]; [exact IH | congruence].
Qed.

(** A separator is not found where the text starts with another
    character than the separator does. *)
Lemma prefix_other (c d : ascii) (sep s : string) :
  d ≠ c → String.prefix (String c sep) (String d s) = false.
Proof.
  intros Hne. cbn [String.prefix].
  destruct (ascii_dec c d); [congruence | reflexivity].
Qed.

(** The scan passes over a piece in which the separator's first character
    does not occur. *)
Lemma split_go_piece (c : ascii) (sep e t cur : string) :
  no_char c e →
  split_go (String c sep) 0 cur (e +:+ t) = split_go (String c sep) 0 (cur +:+ e) t.
Proof.
  revert cur. induction e as [|d e IH]; intros cur Hfree.
  - rewrite append_nil_l, append_nil_r. reflexivity.
  - destruct Hfree as [Hd Hfree].
    rewrite append_cons. cbn [split_go]. rewrite prefix_other by exact Hd.
    rewrite IH by exact Hfree. rewrite append_assoc. reflexivity.
Qed.

Lemma split_go_skip (sep u t cur : string) :
  split_go sep (String.length u) cur (u +:+ t) = split_go sep 0 cur t.
Proof.
  induction u as [|d u IH]; [destruct t; reflexivity|].
  rewrite append_cons. cbn [String.length split_go]. exact IH.
Qed.

(** At a separator the scan closes the piece and starts an empty one. *)
Lemma split_go_sep (c : ascii) (sep t cur : string) :
  split_go (String c sep) 0 cur (String c sep +:+ t)
  = cur :: split_go (String c sep) 0 "" t.
Proof.
  rewrite append_cons. cbn [split_go].
  rewrite <- append_cons, prefix_append. f_equal.
  replace (String.length (String c sep) - 1) with (String.length sep)
    by (cbn [String.length]; lia).
  apply split_go_skip.
Qed.

(** Pieces free of the separator's first character, each followed by the
    separator, split into those pieces and an empty last one. *)
Lemma split_go_pieces (c : ascii) (sep : string) (values : list string) :
  Forall (no_char c) values →
  split_go (String c sep) 0 ""
    (fold_right (fun v acc => v +:+ String c sep +:+ acc) "" values)
  = values ++ [""].
Proof.
  induction values as [|v values IH]; intros Hall; [reflexivity|].
  apply Forall_cons in Hall as [Hv Hall]. cbn [fold_right].
  rewrite split_go_piece by exact Hv. rewrite append_nil_l.
  rewrite split_go_sep, IH by exact Hall. reflexivity.
Qed.

Lemma text_of_fold (values : list string) :
  text_of values = fold_right (fun v acc => v +:+ line_sep +:+ acc) "" values.
Proof.
  induction values as [|v values IH]; [reflexivity|].
  cbn [text_of fold_right]. rewrite IH. reflexivity.
Qed.

Lemma text_of_app (values : list string) (v : string) :
  text_of values +:+ (v +:+ line_sep) = text_of (values ++ [v]).
Proof.
  induction values as [|u values IH].
  - cbn [text_of app]. rewrite append_nil_l, append_nil_r. reflexivity.
  - cbn [text_of app]. rewrite <- IH, !append_assoc. reflexivity.
Qed.

Lemma split_text_of (values : list string) :
  Forall (no_char ","%char) values →
  split line_sep (text_of values) = values ++ [""].
Proof.
  intros Hall. rewrite text_of_fold.
  exact (split_go_pieces ","%char (" " +:+ nl) values Hall).
Qed.

Lemma join_text_of (values : list string) :
  join line_sep (values ++ [""]) = text_of values.
Proof.
  induction values as [|v values IH]; [reflexivity|].
  change ((v :: values) ++ [""]) with (v :: (values ++ [""])).
  cbn [join text_of]. rewrite IH.
  destruct (values ++ [""]) as [|u l] eqn:Hl; [|reflexivity].
  destruct values; discriminate.
Qed.

(** What [record] does to a [Div] that holds comma-free values. *)
Lemma record_text_of (values : list string) (v : string) :
  Forall (no_char ","%char) values → no_char ","%char v →
  record (text_of values) v
  = text_of (if 34 <? length (values ++ [v]) then tail (values ++ [v])
             else values ++ [v]).
Proof.
  intros Hall Hv. unfold record. cbv zeta.
  rewrite text_of_app, split_text_of
    by (apply Forall_app; split; [exact Hall | repeat constructor; exact Hv]).
  rewrite length_app. cbn [length].
  replace (35 <? length (values ++ [v]) + 1) with (34 <? length (values ++ [v]))
    by (destruct (Nat.ltb_spec 34 (length (values ++ [v])));
        destruct (Nat.ltb_spec 35 (length (values ++ [v]) + 1)); lia).
  destruct (34 <? length (values ++ [v])).
  - destruct (values ++ [v]) as [|u l] eqn:Hl; [destruct values; discriminate|].
    cbn [tail app]. apply join_text_of.
  - apply join_text_of.
Qed.

(** The text of a coordinate is read back from the argument list. *)
Lemma split_pair (c : ascii) (sep a b : string) :
  no_char c a → no_char c b →
  split (String c sep) (a +:+ String c sep +:+ b) = [a; b].
Proof.
  intros Ha Hb. unfold split.
  rewrite split_go_piece by exact Ha. rewrite append_nil_l.
  rewrite split_go_sep.
  rewrite <- (append_nil_r b) at 1. rewrite split_go_piece by exact Hb.
  reflexivity.
Qed.

Lemma split_key (c : ascii) (sep v : string) :
  no_char c v → split (String c sep) (String c sep +:+ v) = [""; v].
Proof.
  intros Hv. unfold split. rewrite split_go_sep.
  rewrite <- (append_nil_r v) at 1. rewrite split_go_piece by exact Hv.
  reflexivity.
Qed.

Lemma no_char_cons (c d : ascii) (s : string) :
  d ≠ c → no_char c s → no_char c (String d s).
Proof. intros; split; assumption. Qed.

(** X21: on [Div] texts that hold comma-free values, each followed by
    [", \\n"], a double tap whose coordinates print without a comma, an [x]
    or a [y] appends the two coordinates to the two texts, and drops the
    oldest value of a text that would hold more than 34. *)
Theorem display_event_records (xs ys : list string) (sx sy : string) :
  Forall (no_char ","%char) xs → Forall (no_char ","%char) ys →
  no_char ","%char sx → no_char ","%char sy →
  no_char "x"%char sx → no_char "y"%char sy →
  let keep (l : list string) := if 34 <? length l then tail l else l in
  display_event (text_of xs) (text_of ys) sx sy
  = (text_of (keep (xs ++ [sx])), text_of (keep (ys ++ [sy]))).
Proof.
  intros Hxs Hys Hsx Hsy Hx Hy keep. unfold display_event. cbv zeta.
  assert (Hvals : split ", " (join ", " ["x=" +:+ sx; "y=" +:+ sy])
                  = ["x=" +:+ sx; "y=" +:+ sy]).
  { cbn [join]. apply (split_pair ","%char " ");
      repeat (apply no_char_cons; [discriminate|]); assumption. }
  rewrite Hvals.
  change (item ["x=" +:+ sx; "y=" +:+ sy] 0) with ("x=" +:+ sx).
  change (item ["x=" +:+ sx; "y=" +:+ sy] 1) with ("y=" +:+ sy).
  rewrite (split_key "x"%char "=" sx Hx), (split_key "y"%char "=" sy Hy).
  change (item [""; sx] 1) with sx. change (item [""; sy] 1) with sy.
  rewrite !record_text_of by assumption. reflexivity.
Qed.

Lemma display_event_records_witness :
  let keep (l : list string) := if 34 <? length l then tail l else l in
  display_event (text_of ["1.5"]) (text_of ["2"]) "12.35" "45.6"
  = (text_of (keep (["1.5"] ++ ["12.35"])), text_of (keep (["2"] ++ ["45.6"]))).
Proof.
  apply (display_event_records ["1.5"] ["2"] "12.35" "45.6");
    repeat constructor; discriminate.
Defined.

(** X22: the two texts never grow beyond 34 values: a text of at most 34
    comma-free values holds at most 34 after a double tap, the newest
    last. *)
Theorem display_event_bounded (xs ys : list string) (sx sy : string) :
  Forall (no_char ","%char) xs → Forall (no_char ","%char) ys →
  no_char ","%char sx → no_char ","%char sy →
  no_char "x"%char sx → no_char "y"%char sy →
  length xs ≤ 34 → length ys ≤ 34 →
  ∃ xs' ys',
    display_event (text_of xs) (text_of ys) sx sy = (text_of xs', text_of ys') ∧
    length xs' ≤ 34 ∧ length ys' ≤ 34 ∧
    last xs' = Some sx ∧ last ys' = Some sy ∧
    Forall (no_char ","%char) xs' ∧ Forall (no_char ","%char) ys'.
Proof.
  intros Hxs Hys Hsx Hsy Hx Hy Hlx Hly.
  assert (Hkeep : ∀ (l : list string) (v : string),
            Forall (no_char ","%char) l → no_char ","%char v → length l ≤ 34 →
            let l' := if 34 <? length (l ++ [v]) then tail (l ++ [v]) else l ++ [v] in
            length l' ≤ 34 ∧ last l' = Some v ∧ Forall (no_char ","%char) l').
  { intros l v Hl Hv Hlen. cbv zeta.
    assert (Hall : Forall (no_char ","%char) (l ++ [v]))
      by (apply Forall_app; split; [exact Hl | repeat constructor; exact Hv]).
    pose proof (length_app l [v]) as Happ. cbn [length] in Happ.
    destruct (Nat.ltb_spec 34 (length (l ++ [v]))) as [Hfull|Hroom].
    - destruct l as [|u l]; [simpl in Hfull; lia|].
      cbn [app tail]. cbn [app length] in Happ, Hfull.
      split; [rewrite length_app; cbn [length] in *; lia|].
      split; [apply last_snoc|].
      apply Forall_cons in Hall as [_ Hall]. exact Hall.
    - split; [lia|]. split; [apply last_snoc | exact Hall]. }
  destruct (Hkeep xs sx Hxs Hsx Hlx) as (Ax & Bx & Cx).
  destruct (Hkeep ys sy Hys Hsy Hly) as (Ay & By & Cy).
  eexists _, _. split; [apply display_event_records; assumption|].
  repeat split; assumption.
Qed.

Lemma display_event_bounded_witness :
  ∃ xs' ys',
    display_event (text_of ["1.5"]) (text_of ["2"]) "12.35" "45.6"
    = (text_of xs', text_of ys') ∧
    length xs' ≤ 34 ∧ length ys' ≤ 34 ∧
    last xs' = Some "12.35" ∧ last ys' = Some "45.6" ∧
    Forall (no_char ","%char) xs' ∧ Forall (no_char ","%char) ys'.
Proof.
  apply (display_event_bounded ["1.5"] ["2"] "12.35" "45.6");
    try (repeat constructor; discriminate); simpl; lia.
Defined.

End ClickFacts.
